(** * url-status-checker: the concurrent checker and its probe

    A shallow embedding of [internal/checker/checker.go],
    [internal/models/models.go], the batch handler of
    [internal/api/server.go] with the counter it feeds, and
    [internal/config/config.go], together with the part of Go's [net/http]
    client that the checker drives.

    Go's [int], [int64] and [time.Duration] are embedded as [Z]: the code
    only compares them and divides a duration by a constant, so no
    wrap-around is reachable.  Instants are nanoseconds; inside one probe
    they are counted from the reading [start := time.Now()]. *)

From Stdlib Require Import ZArith Lia.
From stdpp Require Import base list strings gmap.

Local Open Scope Z_scope.

(** ** internal/models *)
Module Models.

Record CheckRequest := {
  URLs : list string;
  Timeout : Z;
  MaxWorkers : Z }.

Record CheckResult := {
  CheckedAt : Z;
  URL : string;
  Error : string;
  ResponseTimeMs : Z;
  StatusCode : Z;
  Available : bool }.

Record CheckResponse := {
  Results : list CheckResult;
  TotalChecked : Z;
  TotalAvailable : Z;
  TotalTimeMs : Z }.

End Models.

(** ** The slice of net/http and time that the checker calls

    Modelled after the documented behaviour of the Go standard library:
    [Client.Do] sends the request, and while the answer is a redirect with a
    Location header it asks [CheckRedirect] what to do; the special error
    [ErrUseLastResponse] makes it hand back the most recent response with a
    nil error.  The request's context and [Client.Timeout] both bound the
    whole call. *)
Module Http.

(** What [CheckRedirect] may answer: nil, [ErrUseLastResponse], or another
    error. *)
Inductive RedirectDecision :=
  | Follow
  | ErrUseLastResponse
  | Refuse (text : string).

(** [CheckRedirect req via]: the upcoming request's URL and the URLs already
    requested, oldest first. *)
Record Client := {
  Timeout : Z;
  CheckRedirect : string -> list string -> RedirectDecision }.

(** What one GET meets on the network.  [Redirects] is an answer carrying a
    Location header, with what a request to that location would meet. *)
Inductive Exchange :=
  | Breaks (text : string) (latency : Z)
  | Responds (status : Z) (latency : Z)
  | Redirects (status : Z) (location : string) (latency : Z) (onward : Exchange).

(** The errors [Do] returns; [error_text] is their [Error()] string (without
    the [url.Error] prefix naming the method and URL). *)
Inductive error :=
  | TransportError (text : string)
  | ClientTimeout
  | ContextDone
  | RedirectError (text : string).

Definition error_text (e : error) : string :=
  match e with
  | TransportError text => text
  | ClientTimeout =>
      "context deadline exceeded (Client.Timeout exceeded while awaiting headers)"
  | ContextDone => "context canceled"
  | RedirectError text => text
  end.

(** The result of [Do]: the response's status code or an error, the instant
    at which [Do] returns, and how many times the request was sent. *)
Record Done := {
  reply : Z + error;
  at_ns : Z;
  sends : nat }.

(** redirectBehavior: the status codes [Do] treats as redirects of a GET. *)
Definition shouldRedirect (status : Z) : bool :=
  (status =? 301) || (status =? 302) || (status =? 303)
  || (status =? 307) || (status =? 308).

(** The earliest instant at which the call is abandoned, and the error it
    then returns: the context's cancellation, or [Timeout] after the call
    began when [Timeout] is positive. *)
Definition limit (c : Client) (cancel_at : option Z) (begun : Z)
    : option (Z * error) :=
  let timer :=
    if 0 <? Timeout c then Some (begun + Timeout c, ClientTimeout) else None in
  match cancel_at, timer with
  | Some x, Some (y, e) => if x <=? y then Some (x, ContextDone) else Some (y, e)
  | Some x, None => Some (x, ContextDone)
  | None, _ => timer
  end.

Definition overdue (lim : option (Z * error)) (t : Z) : bool :=
  match lim with
  | Some (b, _) => b <=? t
  | None => false
  end.

(** Abandoning at the limit: the error is seen when the limit passes, or at
    once if it had passed before the send. *)
Definition abandon (lim : option (Z * error)) (t : Z) (n : nat) : Done :=
  match lim with
  | Some (b, e) => {| reply := inr e; at_ns := Z.max t b; sends := n |}
  | None => {| reply := inr ContextDone; at_ns := t; sends := n |}
  end.

(** The loop of [Client.do]: [t] is the instant of the send, [n] the sends
    made so far, [via] the URLs requested before [url]. *)
Fixpoint follow (c : Client) (lim : option (Z * error)) (x : Exchange)
    (url : string) (via : list string) (t : Z) (n : nat) : Done :=
  match x with
  | Breaks text latency =>
      if overdue lim (t + latency) then abandon lim t (S n)
      else {| reply := inr (TransportError text); at_ns := t + latency; sends := S n |}
  | Responds status latency =>
      if overdue lim (t + latency) then abandon lim t (S n)
      else {| reply := inl status; at_ns := t + latency; sends := S n |}
  | Redirects status location latency onward =>
      if overdue lim (t + latency) then abandon lim t (S n)
      else
        let last := {| reply := inl status; at_ns := t + latency; sends := S n |} in
        if shouldRedirect status then
          if String.eqb location "" then last
          else
            match CheckRedirect c location (via ++ [url]) with
            | ErrUseLastResponse => last
            | Refuse text =>
                {| reply := inr (RedirectError text); at_ns := t + latency; sends := S n |}
            | Follow => follow c lim onward location (via ++ [url]) (t + latency) (S n)
            end
        else last
  end.

Definition Do (c : Client) (net : string -> Exchange) (cancel_at : option Z)
    (url : string) (begun : Z) : Done :=
  follow c (limit c cancel_at begun) (net url) url [] begun 0.

(** [Duration.Milliseconds]: [int64(d) / 1e6], truncated. *)
Definition Milliseconds (d : Z) : Z := Z.quot d 1000000.

End Http.

(** ** internal/checker: the probe *)
Module Checker.
Import Models.

Record Checker := {
  client : Http.Client;
  maxWorkers : Z }.

Definition New (timeout : Z) (maxWorkers : Z) : Checker :=
  {| client := {| Http.Timeout := timeout;
                  Http.CheckRedirect := fun _ _ => Http.ErrUseLastResponse |};
     maxWorkers := maxWorkers |}.

(** What one call of [checkURL] finds outside the program: the wall clock,
    the error of [http.NewRequestWithContext] for a URL (if any) and the time
    it takes, the network, and the instant at which [ctx] is cancelled
    ([None]: never; zero or less: before the probe began). *)
Record World := {
  now : Z;
  build_error : string -> option string;
  build_ns : Z;
  net : string -> Http.Exchange;
  cancel_at : option Z }.

Definition with_Error (s : string) (r : CheckResult) : CheckResult :=
  {| CheckedAt := CheckedAt r; URL := URL r; Error := s;
     ResponseTimeMs := ResponseTimeMs r; StatusCode := StatusCode r;
     Available := Available r |}.

Definition with_ResponseTimeMs (ms : Z) (r : CheckResult) : CheckResult :=
  {| CheckedAt := CheckedAt r; URL := URL r; Error := Error r;
     ResponseTimeMs := ms; StatusCode := StatusCode r;
     Available := Available r |}.

Definition with_Status (code : Z) (r : CheckResult) : CheckResult :=
  {| CheckedAt := CheckedAt r; URL := URL r; Error := Error r;
     ResponseTimeMs := ResponseTimeMs r; StatusCode := code;
     Available := (200 <=? code) && (code <? 400) |}.

(** The call [c.client.Do(req)] as [checkURL] makes it. *)
Definition exchange (c : Checker) (w : World) (url : string) : Http.Done :=
  Http.Do (client c) (net w) (cancel_at w) url (build_ns w).

(** [checkURL]: the three return paths of the source, in its order.  The
    User-Agent header and the closing of the body leave the result as it is
    and are not modelled. *)
Definition checkURL (c : Checker) (w : World) (url : string) : CheckResult :=
  let result :=
    {| CheckedAt := now w; URL := url; Error := ""; ResponseTimeMs := 0;
       StatusCode := 0; Available := false |} in
  match build_error w url with
  | Some err => with_Error ("failed to create request: " +:+ err) result
  | None =>
      let done := exchange c w url in
      let result := with_ResponseTimeMs (Http.Milliseconds (Http.at_ns done)) result in
      match Http.reply done with
      | inr err => with_Error ("request failed: " +:+ Http.error_text err) result
      | inl status => with_Status status result
      end
  end.

Definition CheckURL := checkURL.

(** How a probe ended, seen from outside: the answer's status code, or no
    answer; with the instant (from [start]) at which [checkURL] learnt it. *)
Inductive Ending :=
  | Answered (status : Z)
  | NotBuilt (text : string)
  | NoAnswer (err : Http.error).

Definition ending (c : Checker) (w : World) (url : string) : Ending :=
  match build_error w url with
  | Some err => NotBuilt err
  | None =>
      match Http.reply (exchange c w url) with
      | inl status => Answered status
      | inr err => NoAnswer err
      end
  end.

Definition elapsed (c : Checker) (w : World) (url : string) : Z :=
  match build_error w url with
  | Some _ => build_ns w
  | None => Http.at_ns (exchange c w url)
  end.


(** ** internal/checker: the worker pool of CheckURLs

    The goroutines of one call of [CheckURLs] as an interleaving of atomic
    moves over the shared channels.  [jobs] and [results] are the buffers of
    the two channels, both made with capacity [len(urls)]; [feeder] is the
    goroutine that fills and closes [jobs]; [results_closed] is set by the
    goroutine that waits on the WaitGroup; [checkResults] and [returned]
    belong to the calling goroutine. *)

Inductive worker_pc :=
  | AtRange
  | AtSelect (url : string)
  | InFlight (url : string)
  | Exited.

Inductive feeder_pc :=
  | Feeding (rest : list string)
  | JobsClosed.

Record pool := {
  capacity : nat;
  ctx_done : bool;
  feeder : feeder_pc;
  jobs : list string;
  workers : list worker_pc;
  results : list CheckResult;
  results_closed : bool;
  checkResults : list CheckResult;
  returned : bool }.

(** One atomic move.  [Cancel] is the environment closing [ctx.Done()];
    the others are the program's:
    - [FeederSend]: the select's [jobs <- url];
    - [FeederQuit]: the select's [<-ctx.Done()], then the deferred close;
    - [FeederClose]: the loop over [urls] is finished, deferred close;
    - [WorkerTake i]: [range jobs] hands worker [i] a URL;
    - [WorkerLeave i]: [range jobs] ends, [wg.Done()];
    - [WorkerAbandon i]: the select's [<-ctx.Done()], return;
    - [WorkerProbe i]: the select's default, [checkURL] is entered;
    - [WorkerEmit i w]: [checkURL] returns in world [w], result is sent;
    - [CloseResults]: [wg.Wait()] returns, [close(results)];
    - [Collect]: [range results] appends one result;
    - [Return]: [range results] ends, [CheckURLs] returns. *)
Inductive action :=
  | Cancel
  | FeederSend
  | FeederQuit
  | FeederClose
  | WorkerTake (i : nat)
  | WorkerLeave (i : nat)
  | WorkerAbandon (i : nat)
  | WorkerProbe (i : nat)
  | WorkerEmit (i : nat) (w : World)
  | CloseResults
  | Collect
  | Return.

Definition is_cancel (a : action) : bool :=
  match a with Cancel => true | _ => false end.

Definition is_probe (a : action) : bool :=
  match a with WorkerProbe _ => true | _ => false end.

Definition is_exited (w : worker_pc) : bool :=
  match w with Exited => true | _ => false end.

Definition is_in_flight (w : worker_pc) : bool :=
  match w with InFlight _ => true | _ => false end.

Definition set_ctx_done (s : pool) : pool :=
  {| capacity := capacity s; ctx_done := true; feeder := feeder s;
     jobs := jobs s; workers := workers s; results := results s;
     results_closed := results_closed s; checkResults := checkResults s;
     returned := returned s |}.

Definition set_feeder (f : feeder_pc) (q : list string) (s : pool) : pool :=
  {| capacity := capacity s; ctx_done := ctx_done s; feeder := f;
     jobs := q; workers := workers s; results := results s;
     results_closed := results_closed s; checkResults := checkResults s;
     returned := returned s |}.

Definition set_worker (i : nat) (w : worker_pc) (q : list string)
    (rs : list CheckResult) (s : pool) : pool :=
  {| capacity := capacity s; ctx_done := ctx_done s; feeder := feeder s;
     jobs := q; workers := <[i := w]> (workers s); results := rs;
     results_closed := results_closed s; checkResults := checkResults s;
     returned := returned s |}.

Definition set_main (rs : list CheckResult) (closed : bool)
    (got : list CheckResult) (ret : bool) (s : pool) : pool :=
  {| capacity := capacity s; ctx_done := ctx_done s; feeder := feeder s;
     jobs := jobs s; workers := workers s; results := rs;
     results_closed := closed; checkResults := got; returned := ret |}.

Definition step (c : Checker) (a : action) (s : pool) : option pool :=
  match a with
  | Cancel =>
      if ctx_done s then None else Some (set_ctx_done s)
  | FeederSend =>
      match feeder s with
      | Feeding (url :: rest) =>
          if (length (jobs s) <? capacity s)%nat
          then Some (set_feeder (Feeding rest) (jobs s ++ [url]) s)
          else None
      | _ => None
      end
  | FeederQuit =>
      match feeder s with
      | Feeding (_ :: _) =>
          if ctx_done s then Some (set_feeder JobsClosed (jobs s) s) else None
      | _ => None
      end
  | FeederClose =>
      match feeder s with
      | Feeding [] => Some (set_feeder JobsClosed (jobs s) s)
      | _ => None
      end
  | WorkerTake i =>
      match workers s !! i, jobs s with
      | Some AtRange, url :: rest =>
          Some (set_worker i (AtSelect url) rest (results s) s)
      | _, _ => None
      end
  | WorkerLeave i =>
      match workers s !! i, jobs s, feeder s with
      | Some AtRange, [], JobsClosed =>
          Some (set_worker i Exited [] (results s) s)
      | _, _, _ => None
      end
  | WorkerAbandon i =>
      match workers s !! i with
      | Some (AtSelect _) =>
          if ctx_done s then Some (set_worker i Exited (jobs s) (results s) s)
          else None
      | _ => None
      end
  | WorkerProbe i =>
      match workers s !! i with
      | Some (AtSelect url) =>
          if ctx_done s then None
          else Some (set_worker i (InFlight url) (jobs s) (results s) s)
      | _ => None
      end
  | WorkerEmit i w =>
      match workers s !! i with
      | Some (InFlight url) =>
          if results_closed s then None
          else if (length (results s) <? capacity s)%nat
          then Some (set_worker i AtRange (jobs s) (results s ++ [checkURL c w url]) s)
          else None
      | _ => None
      end
  | CloseResults =>
      if results_closed s then None
      else if forallb is_exited (workers s)
      then Some (set_main (results s) true (checkResults s) (returned s) s)
      else None
  | Collect =>
      if returned s then None
      else
        match results s with
        | r :: rest =>
            Some (set_main rest (results_closed s) (checkResults s ++ [r]) false s)
        | [] => None
        end
  | Return =>
      if returned s then None
      else
        match results s with
        | [] =>
            if results_closed s
            then Some (set_main [] true (checkResults s) true s)
            else None
        | _ :: _ => None
        end
  end.

(** A schedule is the list of moves in the order they happen. *)
Fixpoint exec (c : Checker) (sched : list action) (s : pool) : option pool :=
  match sched with
  | [] => Some s
  | a :: sched' =>
      match step c a s with
      | Some s' => exec c sched' s'
      | None => None
      end
  end.

(** The prologue of [CheckURLs]: the worker count, the early return, and the
    goroutines started otherwise.  The loop [for i := 0; i < workerCount; i++]
    starts no worker when [workerCount] is negative. *)
Definition workerCount (c : Checker) (urls : list string) : Z :=
  let workerCount := maxWorkers c in
  if Z.of_nat (length urls) <? workerCount then Z.of_nat (length urls)
  else workerCount.

Inductive launch :=
  | ReturnedAtOnce (out : list CheckResult)
  | Launched (s : pool).

Definition CheckURLs_launch (c : Checker) (ctx_done0 : bool)
    (urls : list string) : launch :=
  if workerCount c urls =? 0 then ReturnedAtOnce []
  else
    Launched
      {| capacity := length urls; ctx_done := ctx_done0;
         feeder := Feeding urls; jobs := [];
         workers := replicate (Z.to_nat (workerCount c urls)) AtRange;
         results := []; results_closed := false; checkResults := [];
         returned := false |}.

(** [CheckURLs c ctx_done0 urls sched]: what the call returns when its
    goroutines move as [sched] says; [None] when [sched] is not a run of the
    program that ends with the return.  [ctx_done0] tells whether [ctx] was
    already cancelled at the call.  Go's nil slice and its empty slice are
    both the empty list. *)
Definition CheckURLs (c : Checker) (ctx_done0 : bool) (urls : list string)
    (sched : list action) : option (list CheckResult) :=
  match CheckURLs_launch c ctx_done0 urls with
  | ReturnedAtOnce out => Some out
  | Launched s0 =>
      match exec c sched s0 with
      | Some s => if returned s then Some (checkResults s) else None
      | None => None
      end
  end.

(** The worker goroutines a call starts. *)
Definition spawned (c : Checker) (urls : list string) : nat :=
  match CheckURLs_launch c false urls with
  | ReturnedAtOnce _ => 0%nat
  | Launched s0 => length (workers s0)
  end.

(** Workers that have not returned, and those inside [checkURL]. *)
Definition executors (s : pool) : nat :=
  length (filter (fun w => is_exited w = false) (workers s)).

Definition in_flight (s : pool) : nat :=
  length (filter (fun w => is_in_flight w = true) (workers s)).

(** A scheduler that never cancels: the feeder first, then the first worker
    that has not returned, then the closer, then the caller.  [worlds] gives
    the world each probe meets. *)
Definition next (worlds : string -> World) (s : pool) : option action :=
  match feeder s with
  | Feeding [] => Some FeederClose
  | Feeding (_ :: _) => Some FeederSend
  | JobsClosed =>
      match list_find (fun w => is_exited w = false) (workers s) with
      | Some (i, AtRange) =>
          match jobs s with
          | [] => Some (WorkerLeave i)
          | _ :: _ => Some (WorkerTake i)
          end
      | Some (i, AtSelect _) =>
          if ctx_done s then Some (WorkerAbandon i) else Some (WorkerProbe i)
      | Some (i, InFlight url) => Some (WorkerEmit i (worlds url))
      | Some (_, Exited) => None
      | None =>
          if results_closed s then
            match results s with
            | [] => if returned s then None else Some Return
            | _ :: _ => Some Collect
            end
          else Some CloseResults
      end
  end.

Fixpoint plan (c : Checker) (worlds : string -> World) (fuel : nat)
    (s : pool) : list action :=
  match fuel with
  | O => []
  | S fuel' =>
      if returned s then []
      else
        match next worlds s with
        | Some a =>
            match step c a s with
            | Some s' => a :: plan c worlds fuel' s'
            | None => []
            end
        | None => []
        end
  end.

(** The moves still ahead of a pool, counted generously: every move uses up
    at least one. *)
Definition worker_weight (w : worker_pc) : nat :=
  match w with
  | AtRange => 1
  | AtSelect _ => 4
  | InFlight _ => 3
  | Exited => 0
  end.

Definition feeder_weight (f : feeder_pc) : nat :=
  match f with
  | Feeding rest => 5 * length rest + 1
  | JobsClosed => 0
  end.

Definition moves_left (s : pool) : nat :=
  ((if ctx_done s then 0 else 1)
   + feeder_weight (feeder s)
   + 4 * length (jobs s)
   + sum_list (worker_weight <$> workers s)
   + length (results s)
   + (if results_closed s then 0 else 1)
   + (if returned s then 0 else 1))%nat.

(** The run of a call under the scheduler [next]. *)
Definition default_run (c : Checker) (worlds : string -> World)
    (ctx_done0 : bool) (urls : list string) : list action :=
  match CheckURLs_launch c ctx_done0 urls with
  | ReturnedAtOnce _ => []
  | Launched s0 => plan c worlds (moves_left s0) s0
  end.

End Checker.

(** ** internal/api: the handler of POST /api/v1/check

    [decoded] is the outcome of decoding the body ([inl]: the decoder's
    error); [total_ns] is the reading of [time.Since(start)].  The metrics
    counters and the log are left out; the reply is the status line and the
    body that reach the HTTP client. *)
Module Api.

Record Config := {
  DefaultTimeout : Z;
  Port : Z;
  MaxWorkers : Z;
  LogLevel : string;
  Version : string }.

Inductive Body :=
  | Message (text : string)
  | Json (r : Models.CheckResponse).

Record Reply := {
  status : Z;
  body : Body }.

Definition StatusOK : Z := 200.
Definition StatusBadRequest : Z := 400.

Definition availableCount (results : list Models.CheckResult) : Z :=
  Z.of_nat (length (filter (fun r => Models.Available r = true) results)).

(** The checker the handler builds: the request's timeout and max_workers
    when positive, the configuration's otherwise. *)
Definition urlChecker (cfg : Config) (req : Models.CheckRequest) : Checker.Checker :=
  let timeout :=
    if 0 <? Models.Timeout req then Models.Timeout req
    else DefaultTimeout cfg in
  let maxWorkers :=
    if 0 <? Models.MaxWorkers req then Models.MaxWorkers req
    else MaxWorkers cfg in
  Checker.New timeout maxWorkers.

Definition handleCheckURLs (cfg : Config) (decoded : string + Models.CheckRequest)
    (ctx_done0 : bool) (sched : list Checker.action) (total_ns : Z)
    : option Reply :=
  match decoded with
  | inl err =>
      Some {| status := StatusBadRequest;
              body := Message ("invalid request body: " +:+ err) |}
  | inr req =>
      if (length (Models.URLs req) =? 0)%nat then
        Some {| status := StatusBadRequest;
                body := Message "urls field is required and must not be empty" |}
      else if (1000 <? length (Models.URLs req))%nat then
        Some {| status := StatusBadRequest;
                body := Message "maximum 1000 URLs allowed per request" |}
      else
        match Checker.CheckURLs (urlChecker cfg req) ctx_done0 (Models.URLs req) sched with
        | None => None
        | Some results =>
            Some {| status := StatusOK;
                    body := Json {| Models.Results := results;
                                    Models.TotalChecked := Z.of_nat (length results);
                                    Models.TotalAvailable := availableCount results;
                                    Models.TotalTimeMs := Http.Milliseconds total_ns |} |}
        end
  end.

(** The requests the handler turns down as a whole. *)
Definition rejected (decoded : string + Models.CheckRequest) : bool :=
  match decoded with
  | inl _ => true
  | inr req =>
      (length (Models.URLs req) =? 0)%nat || (1000 <? length (Models.URLs req))%nat
  end.

End Api.

(** ** internal/api and internal/metrics: what the handler counts

    [url_checks_total] is a counter vector keyed by its status label; the map
    holds the value of each label that has been touched.  The histogram of
    durations (a float observation) and the in-flight gauge are not
    modelled. *)
Module Metrics.

Definition value (m : gmap string nat) (label : string) : nat :=
  default 0%nat (m !! label).

Definition Inc (label : string) (m : gmap string nat) : gmap string nat :=
  <[label := S (value m label)]> m.

(** The label of one result: "success" unless its error is set. *)
Definition check_status (r : Models.CheckResult) : string :=
  if String.eqb (Models.Error r) "" then "success" else "failure".

(** The loop over the results that increments the counter. *)
Definition count_checks (results : list Models.CheckResult)
    (m : gmap string nat) : gmap string nat :=
  foldl (fun m r => Inc (check_status r) m) m results.

(** [url_checks_total] after the handler has run on a decoded body, from
    its value [m] before: a rejected request returns before the loop. *)
Definition handleCheckURLs_counts (cfg : Api.Config)
    (decoded : string + Models.CheckRequest) (ctx_done0 : bool)
    (sched : list Checker.action) (m : gmap string nat)
    : option (gmap string nat) :=
  match decoded with
  | inl _ => Some m
  | inr req =>
      if (length (Models.URLs req) =? 0)%nat then Some m
      else if (1000 <? length (Models.URLs req))%nat then Some m
      else
        match Checker.CheckURLs (Api.urlChecker cfg req) ctx_done0
                (Models.URLs req) sched with
        | None => None
        | Some results => Some (count_checks results m)
        end
  end.

End Metrics.

(** ** internal/config

    [Atoi] follows the documented behaviour of [strconv.Atoi]: an optional
    sign, then at least one decimal digit and nothing else, with a value in
    the range of a 64-bit int.  [Os] is the process environment
    ([os.Getenv] gives the empty string for an unset variable) and
    [time.ParseDuration]; [Flags] holds the flag values after
    [flag.Parse], which are the defaults 8080, 100, 10s and "info" for the
    flags not given. *)
Module Config.

Definition digit (a : Ascii.ascii) : option Z :=
  let n := Z.of_N (Ascii.N_of_ascii a) in
  if (48 <=? n) && (n <=? 57) then Some (n - 48) else None.

Fixpoint digits (s : string) (acc : Z) : option Z :=
  match s with
  | EmptyString => Some acc
  | String a rest =>
      match digit a with
      | Some d => digits rest (10 * acc + d)
      | None => None
      end
  end.

Definition in_int64 (v : Z) : bool :=
  (-9223372036854775808 <=? v) && (v <=? 9223372036854775807).

Definition unsigned (sign : Z) (s : string) : option Z :=
  match s with
  | EmptyString => None
  | String _ _ =>
      match digits s 0 with
      | Some n => if in_int64 (sign * n) then Some (sign * n) else None
      | None => None
      end
  end.

(** The codes of the two sign characters, minus and plus. *)
Definition is_char (code : Z) (a : Ascii.ascii) : bool :=
  Z.of_N (Ascii.N_of_ascii a) =? code.

Definition Atoi (s : string) : option Z :=
  match s with
  | EmptyString => None
  | String a rest =>
      if is_char 45 a then unsigned (-1) rest
      else if is_char 43 a then unsigned 1 rest
      else unsigned 1 s
  end.

Record Os := {
  Getenv : string -> string;
  ParseDuration : string -> option Z }.

Record Flags := {
  port : Z;
  workers : Z;
  timeout : Z;
  log_level : string }.

Definition getEnvInt (os : Os) (key : string) (defaultVal : Z) : Z :=
  let val := Getenv os key in
  if negb (String.eqb val "") then
    match Atoi val with
    | Some i => i
    | None => defaultVal
    end
  else defaultVal.

Definition getEnvString (os : Os) (key defaultVal : string) : string :=
  let val := Getenv os key in
  if negb (String.eqb val "") then val else defaultVal.

Definition getEnvDuration (os : Os) (key : string) (defaultVal : Z) : Z :=
  let val := Getenv os key in
  if negb (String.eqb val "") then
    match ParseDuration os val with
    | Some d => d
    | None => defaultVal
    end
  else defaultVal.

Definition Load (os : Os) (flags : Flags) : Api.Config :=
  {| Api.Version := "1.0.0";
     Api.Port := getEnvInt os "PORT" (port flags);
     Api.MaxWorkers := getEnvInt os "MAX_WORKERS" (workers flags);
     Api.DefaultTimeout := getEnvDuration os "DEFAULT_TIMEOUT" (timeout flags);
     Api.LogLevel := getEnvString os "LOG_LEVEL" (log_level flags) |}.

End Config.

(** * Auxiliary definitions *)

Import Models Checker.

(** Sample worlds: a server that answers [status] after [latency], with a
    client-side build time of ten microseconds and no cancellation. *)
Definition serving (status latency : Z) : World :=
  {| now := 0; build_error := fun _ => None; build_ns := 10000;
     net := fun _ => Http.Responds status latency; cancel_at := None |}.





(** A server that answers with a redirect to [location], whose target then
    answers 200. *)
Definition redirecting (status : Z) (location : string) (latency : Z) : World :=
  {| now := 0; build_error := fun _ => None; build_ns := 10000;
     net := fun _ => Http.Redirects status location latency
                       (Http.Responds 200 latency);
     cancel_at := None |}.

(** A target that [http.NewRequestWithContext] rejects after [spent] ns. *)
Definition unparsable (text : string) (spent : Z) : World :=
  {| now := 0; build_error := fun _ => Some text; build_ns := spent;
     net := fun _ => Http.Breaks "unreachable" 0; cancel_at := None |}.


(** A checker whose client would follow every redirect, for contrast with
    the one [New] builds. *)
Definition following (timeout : Z) (maxWorkers : Z) : Checker :=
  {| client := {| Http.Timeout := timeout;
                  Http.CheckRedirect := fun _ _ => Http.Follow |};
     maxWorkers := maxWorkers |}.

(** Two servers as in the repository's batch test: the first answers 200,
    any other URL 404. *)
Definition two_servers : World :=
  {| now := 0; build_error := fun _ => None; build_ns := 10000;
     net := fun url => if String.eqb url "http://s1/"
                       then Http.Responds 200 3000000
                       else Http.Responds 404 3000000;
     cancel_at := None |}.

(** A run of two workers over two URLs, without cancellation. *)
Definition two_workers_run : list action :=
  [FeederSend; FeederSend; FeederClose; WorkerTake 0; WorkerTake 1;
   WorkerProbe 0; WorkerProbe 1;
   WorkerEmit 1 (serving 200 3000000); WorkerEmit 0 (serving 404 3000000);
   WorkerLeave 0; WorkerLeave 1; CloseResults; Collect; Collect; Return].

(** A run of one worker over two URLs in which the context is cancelled
    after the first probe. *)
Definition cancelled_run : list action :=
  [FeederSend; FeederSend; FeederClose;
   WorkerTake 0; WorkerProbe 0; WorkerEmit 0 (serving 200 3000000);
   Cancel;
   WorkerTake 0; WorkerAbandon 0; CloseResults; Collect; Return].




(** A configuration and a request that both carry max_workers 0. *)
Definition no_workers_cfg : Api.Config :=
  {| Api.DefaultTimeout := 10000000000; Api.Port := 8080; Api.MaxWorkers := 0;
     Api.LogLevel := "info"; Api.Version := "1.0.0" |}.

Definition no_workers_req : CheckRequest :=
  {| URLs := ["http://a/"]; Timeout := 0; MaxWorkers := 0 |}.

Definition empty_reply (total_ns : Z) : Api.Reply :=
  {| Api.status := 200;
     Api.body := Api.Json {| Results := []; TotalChecked := 0;
                             TotalAvailable := 0;
                             TotalTimeMs := Http.Milliseconds total_ns |} |}.

(** The URLs a pool still answers for: those the feeder has yet to send,
    those queued in [jobs], those held by a worker, and those whose result
    is in [results] or already collected. *)
Definition pending (f : feeder_pc) : list string :=
  match f with
  | Feeding rest => rest
  | JobsClosed => []
  end.

Definition held (w : worker_pc) : list string :=
  match w with
  | AtSelect url | InFlight url => [url]
  | AtRange | Exited => []
  end.

Definition accounted (s : pool) : list string :=
  pending (feeder s) ++ jobs s ++ (workers s ≫= held)
  ++ (URL <$> results s) ++ (URL <$> checkResults s).

(** What holds of every pool a call of [CheckURLs] on [urls] can reach. *)
Record sound (urls : list string) (s : pool) : Prop := {
  sound_capacity : capacity s = length urls;
  sound_sub : accounted s ⊆+ urls;
  sound_all : ctx_done s = false -> accounted s ≡ₚ urls;
  sound_closed : results_closed s = true -> forallb is_exited (workers s) = true;
  sound_returned : returned s = true -> results_closed s = true /\ results s = [];
  sound_left : ctx_done s = false -> Exited ∈ workers s ->
               feeder s = JobsClosed /\ jobs s = [] }.

(** [sched] is a run of the call: nothing moves after an early return. *)
Definition runs (c : Checker) (ctx_done0 : bool) (urls : list string)
    (sched : list action) : Prop :=
  match CheckURLs_launch c ctx_done0 urls with
  | ReturnedAtOnce _ => sched = []
  | Launched s0 => is_Some (exec c sched s0)
  end.

(** The probes a schedule begins, and the results a pool answers for so
    far: probes in flight, results sent, results collected. *)
Definition probes_begun (sched : list action) : nat :=
  length (filter (fun a => is_probe a = true) sched).

Definition flying (w : worker_pc) : nat :=
  match w with
  | InFlight _ => 1
  | AtRange | AtSelect _ | Exited => 0
  end.

Definition reported (s : pool) : nat :=
  (sum_list (flying <$> workers s) + length (results s)
   + length (checkResults s))%nat.

(** The results in emission order: those collected, then those still in
    the channel. *)
Definition emitted (s : pool) : list CheckResult :=
  checkResults s ++ results s.

(** [r] is what some probe of checker [c] returned. *)
Definition made_by (c : Checker) (r : CheckResult) : Prop :=
  exists w url, r = checkURL c w url.

(** The results and URLs of a pool in the order of the input, for a pool
    with a single worker: collected, sent, held, queued, still to send. *)
Definition lined_up (s : pool) : list string :=
  (URL <$> checkResults s) ++ (URL <$> results s) ++ (workers s ≫= held)
  ++ jobs s ++ pending (feeder s).

(** The two halves of [cancelled_run], up to and from the cancellation. *)
Definition before_cancel : list action :=
  [FeederSend; FeederSend; FeederClose;
   WorkerTake 0; WorkerProbe 0; WorkerEmit 0 (serving 200 3000000)].

Definition after_cancel : list action :=
  [Cancel; WorkerTake 0; WorkerAbandon 0; CloseResults; Collect; Return].

(** The results whose error is empty, as a count. *)
Definition answered_count (results : list CheckResult) : nat :=
  length (filter (fun r => Error r = "") results).

(** An environment that only sets MAX_WORKERS, and the flags left at their
    defaults. *)
Definition only_max_workers (text : string) : Config.Os :=
  {| Config.Getenv := fun key => if String.eqb key "MAX_WORKERS" then text else "";
     Config.ParseDuration := fun _ => None |}.

Definition default_flags : Config.Flags :=
  {| Config.port := 8080; Config.workers := 100;
     Config.timeout := 10000000000; Config.log_level := "info" |}.

(** A request for the two servers, with two workers. *)
Definition two_urls_req : CheckRequest :=
  {| URLs := ["http://s1/"; "http://s2/"]; Timeout := 0; MaxWorkers := 2 |}.

(** * Properties of the probe *)


Lemma available_range (status : Z) :
  (200 <=? status) && (status <? 400) = true <-> 200 <= status < 400.
Proof. rewrite andb_true_iff, Z.leb_le, Z.ltb_lt. tauto. Qed.

(** C3: a probe that receives a response is available exactly when the
    status code lies in [200, 400); the status code is recorded and no error
    is set.  A 200 answer gives available with status 200, a 404 answer gives
    not available with status 404, both without error. *)
Theorem checkURL_answered (c : Checker) (w : World) (url : string) (status : Z) :
  ending c w url = Answered status ->
  let r := checkURL c w url in
  (Available r = true <-> 200 <= status < 400)
  /\ StatusCode r = status
  /\ Error r = ""
  /\ (status = 200 -> Available r = true /\ StatusCode r = 200 /\ Error r = "")
  /\ (status = 404 -> Available r = false /\ StatusCode r = 404 /\ Error r = "").
Proof.
  unfold ending, checkURL.
  destruct (build_error w url) as [err|]; [discriminate|].
  destruct (Http.reply (exchange c w url)) as [st|err]; [|discriminate].
  intros [= ->]; simpl.
  split; [apply available_range|].
  do 2 (split; [reflexivity|]).
  split; intros ->; simpl; auto.
Qed.

Lemma checkURL_answered_witness :
  (Available (checkURL (New 5000000000 10) (serving 404 3000000) "http://a/") = true
   <-> 200 <= 404 < 400)
  /\ StatusCode (checkURL (New 5000000000 10) (serving 404 3000000) "http://a/") = 404
  /\ Error (checkURL (New 5000000000 10) (serving 404 3000000) "http://a/") = "".
Proof.
  destruct (checkURL_answered (New 5000000000 10) (serving 404 3000000)
              "http://a/" 404 eq_refl) as (H1 & H2 & H3 & _).
  exact (conj H1 (conj H2 H3)).
Defined.

(** C10: in every result of a probe, available implies a status code in
    [200, 400) and an empty error, and a non-empty error implies not
    available and status code zero. *)
Theorem checkURL_invariant (c : Checker) (w : World) (url : string) :
  let r := checkURL c w url in
  (Available r = true -> 200 <= StatusCode r < 400 /\ Error r = "")
  /\ (Error r <> "" -> Available r = false /\ StatusCode r = 0).
Proof.
  unfold checkURL.
  destruct (build_error w url) as [err|]; simpl.
  { split; [discriminate|auto]. }
  destruct (Http.reply (exchange c w url)) as [st|err]; simpl.
  - split; [|congruence].
    intros H; apply available_range in H; auto.
  - split; [discriminate|auto].
Qed.

(** * Properties of the pool *)

Lemma URL_checkURL (c : Checker) (w : World) (url : string) :
  URL (checkURL c w url) = url.
Proof.
  unfold checkURL.
  destruct (build_error w url); [reflexivity|].
  destruct (Http.reply (exchange c w url)); reflexivity.
Qed.

Lemma held_insert (ws : list worker_pc) (i : nat) (w0 : worker_pc) :
  ws !! i = Some w0 ->
  exists rest, ws ≫= held ≡ₚ held w0 ++ rest
               /\ forall w, <[i := w]> ws ≫= held ≡ₚ held w ++ rest.
Proof.
  intros Hi.
  exists ((take i ws ≫= held) ++ (drop (S i) ws ≫= held)).
  split.
  - rewrite <- (take_drop_middle ws i w0 Hi) at 1.
    rewrite bind_app, bind_cons.
    rewrite (assoc_L (++)), (comm (++) (take i ws ≫= held)), <- (assoc_L (++)).
    reflexivity.
  - intros w.
    rewrite insert_take_drop by (eapply lookup_lt_Some; eauto).
    rewrite bind_app, bind_cons.
    rewrite (assoc_L (++)), (comm (++) (take i ws ≫= held)), <- (assoc_L (++)).
    reflexivity.
Qed.

Lemma sum_list_append (l1 l2 : list nat) :
  sum_list (l1 ++ l2) = (sum_list l1 + sum_list l2)%nat.
Proof. induction l1 as [|x l1 IH]; simpl; [reflexivity|]. rewrite IH; lia. Qed.

Lemma weight_insert (ws : list worker_pc) (i : nat) (w0 w : worker_pc) :
  ws !! i = Some w0 ->
  (sum_list (worker_weight <$> <[i := w]> ws) + worker_weight w0
   = sum_list (worker_weight <$> ws) + worker_weight w)%nat.
Proof.
  intros Hi.
  rewrite <- (take_drop_middle ws i w0 Hi) at 2.
  rewrite insert_take_drop by (eapply lookup_lt_Some; eauto).
  rewrite !fmap_app, !fmap_cons, !sum_list_append; simpl. lia.
Qed.

Lemma exited_insert (ws : list worker_pc) (i : nat) (w : worker_pc) :
  Exited ∈ <[i := w]> ws -> w = Exited \/ Exited ∈ ws.
Proof.
  intros [j Hj]%list_elem_of_lookup.
  destruct (decide (i = j)) as [->|Hne].
  - destruct (decide (j < length ws)%nat) as [Hlt|Hge].
    + rewrite list_lookup_insert_eq in Hj by assumption. left; congruence.
    + rewrite list_insert_ge in Hj by lia.
      right; eapply list_elem_of_lookup_2; eauto.
  - rewrite list_lookup_insert_ne in Hj by assumption.
    right; eapply list_elem_of_lookup_2; eauto.
Qed.

Lemma all_exited_lookup (ws : list worker_pc) (i : nat) (w : worker_pc) :
  forallb is_exited ws = true -> ws !! i = Some w -> w = Exited.
Proof.
  intros Hall Hi.
  rewrite forallb_forall in Hall.
  apply list_elem_of_lookup_2, list_elem_of_In, Hall in Hi.
  destruct w; simpl in Hi; congruence.
Qed.

Lemma accounted_perm (p p' q q' h h' : list string) (r r' g g' : list CheckResult) :
  p ++ q ++ h ++ (URL <$> r) ++ (URL <$> g)
    ≡ₚ p' ++ q' ++ h' ++ (URL <$> r') ++ (URL <$> g') ->
  forall urls,
    (p ++ q ++ h ++ (URL <$> r) ++ (URL <$> g) ⊆+ urls ->
     p' ++ q' ++ h' ++ (URL <$> r') ++ (URL <$> g') ⊆+ urls)
    /\ (p ++ q ++ h ++ (URL <$> r) ++ (URL <$> g) ≡ₚ urls ->
        p' ++ q' ++ h' ++ (URL <$> r') ++ (URL <$> g') ≡ₚ urls).
Proof. intros E urls; split; intros H; rewrite <- E; exact H. Qed.

Lemma step_sound (c : Checker) (urls : list string) (a : action) (s s' : pool) :
  sound urls s -> step c a s = Some s' -> sound urls s'.
Proof.
  intros [Hcap Hsub Hall Hclosed Hret Hleft] Hstep.
  unfold accounted in *.
  destruct a; simpl in Hstep.
  - (* Cancel *)
    destruct (ctx_done s) eqn:Hd; [discriminate|].
    injection Hstep as <-.
    split; unfold accounted; simpl; auto; try discriminate.
  - (* FeederSend *)
    destruct (feeder s) as [[|url rest]|] eqn:Hf; try discriminate.
    destruct (length (jobs s) <? capacity s)%nat; [|discriminate].
    injection Hstep as <-.
    assert (E : pending (Feeding (url :: rest)) ++ jobs s ++ (workers s ≫= held)
                  ++ (URL <$> results s) ++ (URL <$> checkResults s)
                ≡ₚ rest ++ (jobs s ++ [url]) ++ (workers s ≫= held)
                  ++ (URL <$> results s) ++ (URL <$> checkResults s)).
    { simpl. rewrite <- (assoc_L (++) (jobs s)). simpl.
      rewrite <- !Permutation_middle. reflexivity. }
    destruct (accounted_perm _ _ _ _ _ _ _ _ _ _ E urls) as [E1 E2].
    split; unfold accounted; simpl; auto.
    intros Hd Hin. destruct (Hleft Hd Hin) as [? _]; discriminate.
  - (* FeederQuit *)
    destruct (feeder s) as [[|url rest]|] eqn:Hf; try discriminate.
    destruct (ctx_done s) eqn:Hd; [|discriminate].
    injection Hstep as <-.
    split; unfold accounted; simpl; auto; try (rewrite Hd; discriminate).
    etransitivity; [|exact Hsub]. simpl.
    apply submseteq_cons, submseteq_inserts_l. reflexivity.
  - (* FeederClose *)
    destruct (feeder s) as [[|url rest]|] eqn:Hf; try discriminate.
    injection Hstep as <-.
    split; unfold accounted; simpl; auto.
    intros Hd Hin. destruct (Hleft Hd Hin) as [? _]; discriminate.
  - (* WorkerTake *)
    destruct (workers s !! i) as [[| | |]|] eqn:Hi; try discriminate.
    destruct (jobs s) as [|url rest] eqn:Hj; [discriminate|].
    injection Hstep as <-.
    destruct (held_insert _ _ _ Hi) as (others & Ho & Hins).
    assert (E : pending (feeder s) ++ (url :: rest) ++ (workers s ≫= held)
                  ++ (URL <$> results s) ++ (URL <$> checkResults s)
                ≡ₚ pending (feeder s) ++ rest ++ (<[i := AtSelect url]> (workers s) ≫= held)
                  ++ (URL <$> results s) ++ (URL <$> checkResults s)).
    { rewrite Ho, Hins. simpl. rewrite <- !Permutation_middle. reflexivity. }
    destruct (accounted_perm _ _ _ _ _ _ _ _ _ _ E urls) as [E1 E2].
    split; unfold accounted; simpl; auto.
    + intros Hc. specialize (Hclosed Hc).
      pose proof (all_exited_lookup _ _ _ Hclosed Hi); discriminate.
    + intros Hd Hin. apply exited_insert in Hin as [?|Hin]; [discriminate|].
      destruct (Hleft Hd Hin) as [_ ?]; discriminate.
  - (* WorkerLeave *)
    destruct (workers s !! i) as [[| | |]|] eqn:Hi; try discriminate.
    destruct (jobs s) as [|url rest] eqn:Hj; [|discriminate].
    destruct (feeder s) eqn:Hf; [discriminate|].
    injection Hstep as <-.
    destruct (held_insert _ _ _ Hi) as (others & Ho & Hins).
    assert (E : pending JobsClosed ++ [] ++ (workers s ≫= held)
                  ++ (URL <$> results s) ++ (URL <$> checkResults s)
                ≡ₚ pending JobsClosed ++ [] ++ (<[i := Exited]> (workers s) ≫= held)
                  ++ (URL <$> results s) ++ (URL <$> checkResults s)).
    { rewrite Ho, Hins. reflexivity. }
    destruct (accounted_perm _ _ _ _ _ _ _ _ _ _ E urls) as [E1 E2].
    split; unfold accounted; simpl; rewrite ?Hf; auto.
    intros Hc. specialize (Hclosed Hc).
    pose proof (all_exited_lookup _ _ _ Hclosed Hi); discriminate.
  - (* WorkerAbandon *)
    destruct (workers s !! i) as [[|url|url|]|] eqn:Hi; try discriminate.
    destruct (ctx_done s) eqn:Hd; [|discriminate].
    injection Hstep as <-.
    destruct (held_insert _ _ _ Hi) as (others & Ho & Hins).
    split; unfold accounted; simpl; auto; try (rewrite Hd; discriminate).
    + etransitivity; [|exact Hsub].
      rewrite Ho, Hins. simpl.
      do 2 (apply submseteq_app; [reflexivity|]).
      apply submseteq_cons. reflexivity.
    + intros Hc. specialize (Hclosed Hc).
      pose proof (all_exited_lookup _ _ _ Hclosed Hi); discriminate.
  - (* WorkerProbe *)
    destruct (workers s !! i) as [[|url|url|]|] eqn:Hi; try discriminate.
    destruct (ctx_done s) eqn:Hd; [discriminate|].
    injection Hstep as <-.
    destruct (held_insert _ _ _ Hi) as (others & Ho & Hins).
    assert (E : pending (feeder s) ++ jobs s ++ (workers s ≫= held)
                  ++ (URL <$> results s) ++ (URL <$> checkResults s)
                ≡ₚ pending (feeder s) ++ jobs s ++ (<[i := InFlight url]> (workers s) ≫= held)
                  ++ (URL <$> results s) ++ (URL <$> checkResults s)).
    { rewrite Ho, Hins. reflexivity. }
    destruct (accounted_perm _ _ _ _ _ _ _ _ _ _ E urls) as [E1 E2].
    split; unfold accounted; simpl; auto.
    + intros Hc. specialize (Hclosed Hc).
      pose proof (all_exited_lookup _ _ _ Hclosed Hi); discriminate.
    + intros _ Hin. apply exited_insert in Hin as [?|Hin]; [discriminate|].
      auto.
  - (* WorkerEmit *)
    destruct (workers s !! i) as [[|url|url|]|] eqn:Hi; try discriminate.
    destruct (results_closed s) eqn:Hc; [discriminate|].
    destruct (length (results s) <? capacity s)%nat; [|discriminate].
    injection Hstep as <-.
    destruct (held_insert _ _ _ Hi) as (others & Ho & Hins).
    assert (E : pending (feeder s) ++ jobs s ++ (workers s ≫= held)
                  ++ (URL <$> results s) ++ (URL <$> checkResults s)
                ≡ₚ pending (feeder s) ++ jobs s ++ (<[i := AtRange]> (workers s) ≫= held)
                  ++ (URL <$> results s ++ [checkURL c w url]) ++ (URL <$> checkResults s)).
    { rewrite Ho, Hins, fmap_app. simpl. rewrite URL_checkURL.
      rewrite <- (assoc_L (++) (URL <$> results s)). simpl.
      rewrite <- !Permutation_middle. reflexivity. }
    destruct (accounted_perm _ _ _ _ _ _ _ _ _ _ E urls) as [E1 E2].
    split; unfold accounted; simpl; auto.
    + rewrite Hc; discriminate.
    + intros Hr. destruct (Hret Hr) as [? _]; congruence.
    + intros Hd Hin. apply exited_insert in Hin as [?|Hin]; [discriminate|].
      auto.
  - (* CloseResults *)
    destruct (results_closed s) eqn:Hc; [discriminate|].
    destruct (forallb is_exited (workers s)) eqn:Hw; [|discriminate].
    injection Hstep as <-.
    split; unfold accounted; simpl; auto.
    intros Hr. destruct (Hret Hr) as [? _]; congruence.
  - (* Collect *)
    destruct (returned s) eqn:Hr; [discriminate|].
    destruct (results s) as [|r rest] eqn:Hrs; [discriminate|].
    injection Hstep as <-.
    assert (E : pending (feeder s) ++ jobs s ++ (workers s ≫= held)
                  ++ (URL <$> r :: rest) ++ (URL <$> checkResults s)
                ≡ₚ pending (feeder s) ++ jobs s ++ (workers s ≫= held)
                  ++ (URL <$> rest) ++ (URL <$> checkResults s ++ [r])).
    { rewrite fmap_app. simpl. rewrite <- !Permutation_middle.
      rewrite app_nil_r. reflexivity. }
    destruct (accounted_perm _ _ _ _ _ _ _ _ _ _ E urls) as [E1 E2].
    split; unfold accounted; simpl; auto.
    discriminate.
  - (* Return *)
    destruct (returned s) eqn:Hr; [discriminate|].
    destruct (results s) as [|r rest] eqn:Hrs; [|discriminate].
    destruct (results_closed s) eqn:Hc; [|discriminate].
    injection Hstep as <-.
    split; unfold accounted; simpl; auto.
Qed.

Lemma launch_sound (c : Checker) (d : bool) (urls : list string) (s0 : pool) :
  CheckURLs_launch c d urls = Launched s0 -> sound urls s0.
Proof.
  unfold CheckURLs_launch.
  destruct (workerCount c urls =? 0); [discriminate|].
  intros [= <-].
  split; unfold accounted; simpl; try discriminate; auto.
  - induction (Z.to_nat (workerCount c urls)) as [|n IH]; simpl;
      [rewrite app_nil_r; reflexivity | exact IH].
  - intros _. induction (Z.to_nat (workerCount c urls)) as [|n IH]; simpl;
      [rewrite app_nil_r; reflexivity | exact IH].
  - intros _ Hin. apply elem_of_replicate in Hin as [? _]; discriminate.
Qed.

Lemma exec_sound (c : Checker) (urls : list string) (sched : list action) :
  forall s s', sound urls s -> exec c sched s = Some s' -> sound urls s'.
Proof.
  induction sched as [|a sched IH]; simpl; intros s s' Hs Hexec.
  - congruence.
  - destruct (step c a s) as [s1|] eqn:Hstep; [|discriminate].
    eauto using step_sound.
Qed.

Lemma exec_app (c : Checker) (sched1 sched2 : list action) (s : pool) :
  exec c (sched1 ++ sched2) s =
    match exec c sched1 s with
    | Some s1 => exec c sched2 s1
    | None => None
    end.
Proof.
  revert s; induction sched1 as [|a sched1 IH]; simpl; intros s; [reflexivity|].
  destruct (step c a s); [apply IH|reflexivity].
Qed.

(** Every move uses up at least one of the moves left. *)
Lemma step_moves_left (c : Checker) (a : action) (s s' : pool) :
  step c a s = Some s' -> (moves_left s' < moves_left s)%nat.
Proof.
  unfold moves_left.
  destruct a; simpl; intros Hstep;
    repeat match type of Hstep with
    | context [match ?x with _ => _ end] =>
        let E := fresh "E" in destruct x eqn:E; try discriminate
    end;
    injection Hstep as <-; simpl;
    rewrite ?E, ?E0, ?E1, ?E2, ?length_app; simpl;
    try match goal with
    | Hi : workers s !! ?i = Some ?w0 |- context [<[?i := ?w]> (workers s)] =>
        pose proof (weight_insert (workers s) i w0 w Hi); simpl in *
    end;
    try lia.
Qed.

Lemma exec_bounded (c : Checker) (sched : list action) :
  forall s s', exec c sched s = Some s' ->
  (length sched + moves_left s' <= moves_left s)%nat.
Proof.
  induction sched as [|a sched IH]; simpl; intros s s' Hexec.
  - injection Hexec as <-; lia.
  - destruct (step c a s) as [s1|] eqn:Hstep; [|discriminate].
    apply IH in Hexec. apply step_moves_left in Hstep. lia.
Qed.

Lemma accounted_length (urls : list string) (s : pool) :
  sound urls s ->
  (length (pending (feeder s)) + length (jobs s) + length (workers s ≫= held)
   + length (results s) + length (checkResults s) <= capacity s)%nat.
Proof.
  intros [Hcap Hsub _ _ _ _].
  apply submseteq_length in Hsub. unfold accounted in Hsub.
  rewrite !length_app, !length_fmap in Hsub. lia.
Qed.

Lemma none_running (ws : list worker_pc) :
  list_find (fun w => is_exited w = false) ws = None ->
  forallb is_exited ws = true.
Proof.
  intros H%list_find_None.
  apply forallb_forall. intros w Hw%list_elem_of_In.
  rewrite Forall_forall in H. specialize (H w Hw).
  destruct (is_exited w); [reflexivity|]. exfalso; apply H; reflexivity.
Qed.

(** No deadlock: as long as the call has not returned, the scheduler [next]
    finds a move of the program that is enabled. *)
Lemma next_enabled (c : Checker) (worlds : string -> World)
    (urls : list string) (s : pool) :
  sound urls s -> returned s = false ->
  exists a s', next worlds s = Some a /\ is_cancel a = false
               /\ step c a s = Some s'.
Proof.
  intros Hs Hr.
  pose proof (accounted_length urls s Hs) as Hlen.
  destruct Hs as [Hcap Hsub Hall Hclosed Hret Hleft].
  unfold next.
  destruct (feeder s) as [[|url rest]|] eqn:Hf.
  - eexists _, _; split; [reflexivity|]; split; [reflexivity|].
    simpl; rewrite Hf; reflexivity.
  - eexists _, _; split; [reflexivity|]; split; [reflexivity|].
    simpl; rewrite Hf. simpl in Hlen.
    destruct (Nat.ltb_spec (length (jobs s)) (capacity s)); [reflexivity|lia].
  - destruct (list_find _ (workers s)) as [[i w]|] eqn:Hfind.
    + apply list_find_Some in Hfind as (Hi & Hw & _).
      destruct w as [|url|url|]; simpl in Hw; try discriminate.
      * destruct (jobs s) as [|url rest] eqn:Hj;
          eexists _, _; (split; [reflexivity|]); (split; [reflexivity|]);
          simpl; rewrite Hi, ?Hj, ?Hf; reflexivity.
      * destruct (ctx_done s) eqn:Hd;
          eexists _, _; (split; [reflexivity|]); (split; [reflexivity|]);
          simpl; rewrite Hi, Hd; reflexivity.
      * eexists _, _; split; [reflexivity|]; split; [reflexivity|].
        simpl; rewrite Hi.
        destruct (results_closed s) eqn:Hc.
        { pose proof (all_exited_lookup _ _ _ (Hclosed eq_refl) Hi); discriminate. }
        destruct (held_insert _ _ _ Hi) as (others & Ho & _).
        apply Permutation_length in Ho. simpl in Ho.
        destruct (Nat.ltb_spec (length (results s)) (capacity s)); [reflexivity|lia].
    + apply none_running in Hfind.
      destruct (results_closed s) eqn:Hc.
      * destruct (results s) as [|r rest] eqn:Hrs; rewrite ?Hr;
          eexists _, _; (split; [reflexivity|]); (split; [reflexivity|]);
          simpl; rewrite Hr, Hrs, ?Hc; reflexivity.
      * eexists _, _; split; [reflexivity|]; split; [reflexivity|].
        simpl; rewrite Hc, Hfind; reflexivity.
Qed.

(** The schedule that [plan] builds is a run that ends with the return and
    contains no cancellation. *)
Lemma plan_returns (c : Checker) (worlds : string -> World) (urls : list string)
    (fuel : nat) :
  forall s, sound urls s -> (moves_left s <= fuel)%nat ->
  exists s', exec c (plan c worlds fuel s) s = Some s'
             /\ returned s' = true
             /\ existsb is_cancel (plan c worlds fuel s) = false.
Proof.
  induction fuel as [|fuel IH]; intros s Hs Hfuel.
  - destruct (returned s) eqn:Hr.
    + exists s; repeat split; assumption.
    + unfold moves_left in Hfuel; rewrite Hr in Hfuel; lia.
  - simpl. destruct (returned s) eqn:Hr.
    + exists s; repeat split; assumption.
    + destruct (next_enabled c worlds urls s Hs Hr) as (a & s1 & Hn & Hc & Hstep).
      rewrite Hn, Hstep.
      destruct (IH s1) as (s' & Hexec & Hret & Hno).
      * eapply step_sound; eauto.
      * apply step_moves_left in Hstep. lia.
      * exists s'. simpl. rewrite Hstep, Hc. auto.
Qed.

Lemma step_ctx_done (c : Checker) (a : action) (s s' : pool) :
  step c a s = Some s' ->
  (ctx_done s = true -> ctx_done s' = true)
  /\ (is_cancel a = false -> ctx_done s' = ctx_done s)
  /\ length (workers s') = length (workers s).
Proof.
  destruct a; simpl; intros Hstep;
    repeat match type of Hstep with
    | context [match ?x with _ => _ end] =>
        let E := fresh "E" in destruct x eqn:E; try discriminate
    end;
    injection Hstep as <-; simpl; rewrite ?length_insert; auto.
  repeat split; auto; discriminate.
Qed.

Lemma exec_ctx_done (c : Checker) (sched : list action) :
  forall s s', exec c sched s = Some s' ->
  (ctx_done s = true -> ctx_done s' = true)
  /\ (existsb is_cancel sched = false -> ctx_done s' = ctx_done s)
  /\ length (workers s') = length (workers s).
Proof.
  induction sched as [|a sched IH]; simpl; intros s s' Hexec.
  - injection Hexec as <-; auto.
  - destruct (step c a s) as [s1|] eqn:Hstep; [|discriminate].
    destruct (step_ctx_done _ _ _ _ Hstep) as (H1 & H2 & H3).
    destruct (IH _ _ Hexec) as (H4 & H5 & H6).
    repeat split; [auto| |congruence].
    intros [Ha Hs]%orb_false_elim. rewrite H5, H2; auto.
Qed.

Lemma step_probe_live (c : Checker) (a : action) (s s' : pool) :
  step c a s = Some s' -> is_probe a = true -> ctx_done s = false.
Proof.
  destruct a; simpl; try discriminate. intros Hstep _.
  destruct (workers s !! i) as [[| | |]|]; try discriminate.
  destruct (ctx_done s); [discriminate|reflexivity].
Qed.

Lemma exec_no_probe_once_done (c : Checker) (sched : list action) :
  forall s s', ctx_done s = true -> exec c sched s = Some s' ->
  existsb is_probe sched = false /\ ctx_done s' = true.
Proof.
  induction sched as [|a sched IH]; simpl; intros s s' Hd Hexec.
  - injection Hexec as <-; auto.
  - destruct (step c a s) as [s1|] eqn:Hstep; [|discriminate].
    destruct (step_ctx_done _ _ _ _ Hstep) as (H1 & _ & _).
    destruct (IH _ _ (H1 Hd) Hexec) as [H2 H3].
    split; [|assumption]. rewrite H2, orb_false_r.
    destruct (is_probe a) eqn:Ha; [|reflexivity].
    pose proof (step_probe_live _ _ _ _ Hstep Ha); congruence.
Qed.

(** A pool without workers never probes and never has a result. *)
Lemma step_idle (c : Checker) (a : action) (s s' : pool) :
  workers s = [] -> results s = [] -> checkResults s = [] ->
  step c a s = Some s' ->
  workers s' = [] /\ results s' = [] /\ checkResults s' = []
  /\ is_probe a = false.
Proof.
  intros Hw Hr Hg.
  destruct a; simpl; rewrite ?Hw, ?Hr; simpl; intros Hstep;
    repeat match type of Hstep with
    | context [match ?x with _ => _ end] =>
        let E := fresh "E" in destruct x eqn:E; try discriminate
    end;
    try discriminate;
    injection Hstep as <-; simpl; auto.
Qed.

Lemma exec_idle (c : Checker) (sched : list action) :
  forall s s', workers s = [] -> results s = [] -> checkResults s = [] ->
  exec c sched s = Some s' ->
  checkResults s' = [] /\ existsb is_probe sched = false.
Proof.
  induction sched as [|a sched IH]; simpl; intros s s' Hw Hr Hg Hexec.
  - injection Hexec as <-; auto.
  - destruct (step c a s) as [s1|] eqn:Hstep; [|discriminate].
    destruct (step_idle _ _ _ _ Hw Hr Hg Hstep) as (H1 & H2 & H3 & H4).
    destruct (IH _ _ H1 H2 H3 Hexec) as [H5 H6].
    rewrite H4, H6; auto.
Qed.

Lemma all_exited_held (ws : list worker_pc) :
  forallb is_exited ws = true -> ws ≫= held = [].
Proof.
  induction ws as [|w ws IH]; simpl; [reflexivity|].
  intros [Hw Hws]%andb_true_iff.
  destruct w; try discriminate. simpl. auto.
Qed.

(** At the return, without cancellation and with at least one worker, the
    collected results answer for exactly the input URLs. *)
Lemma returned_all (urls : list string) (s : pool) :
  sound urls s -> returned s = true -> ctx_done s = false ->
  workers s <> [] -> URL <$> checkResults s ≡ₚ urls.
Proof.
  intros [_ _ Hall Hclosed Hret Hleft] Hr Hd Hw.
  destruct (Hret Hr) as [Hc Hrs].
  specialize (Hclosed Hc).
  destruct (Hleft Hd) as [Hf Hj].
  { destruct (workers s) as [|w ws] eqn:E; [congruence|].
    rewrite (all_exited_lookup (w :: ws) 0 w Hclosed eq_refl). left. }
  specialize (Hall Hd). unfold accounted in Hall.
  rewrite Hf, Hj, Hrs, (all_exited_held _ Hclosed) in Hall. exact Hall.
Qed.

Lemma collected_sub (urls : list string) (s : pool) :
  sound urls s -> URL <$> checkResults s ⊆+ urls.
Proof.
  intros [_ Hsub _ _ _ _]. etransitivity; [|exact Hsub].
  unfold accounted. do 4 apply submseteq_inserts_l. reflexivity.
Qed.

Lemma workerCount_is_min (c : Checker) (urls : list string) :
  workerCount c urls = Z.min (maxWorkers c) (Z.of_nat (length urls)).
Proof.
  unfold workerCount.
  destruct (Z.ltb_spec (Z.of_nat (length urls)) (maxWorkers c)); lia.
Qed.

Lemma launch_workers (c : Checker) (d : bool) (urls : list string) (s0 : pool) :
  CheckURLs_launch c d urls = Launched s0 ->
  workers s0 = replicate (Z.to_nat (workerCount c urls)) AtRange
  /\ results s0 = [] /\ checkResults s0 = [] /\ ctx_done s0 = d
  /\ moves_left s0
     = ((if d then 0 else 1) + (5 * length urls + 1)
        + Z.to_nat (workerCount c urls) + 2)%nat.
Proof.
  unfold CheckURLs_launch.
  destruct (workerCount c urls =? 0); [discriminate|].
  intros [= <-]. unfold moves_left; simpl.
  repeat split; auto.
  assert (E : forall n, sum_list (worker_weight <$> replicate n AtRange) = n).
  { induction n as [|n IH]; simpl; [reflexivity|]. f_equal; exact IH. }
  rewrite E. destruct d; lia.
Qed.

(** The call always returns: the run that [plan] builds ends with the
    return and contains no cancellation. *)
Lemma CheckURLs_returns (c : Checker) (d : bool) (urls : list string)
    (worlds : string -> World) :
  exists out,
    existsb is_cancel (default_run c worlds d urls) = false
    /\ CheckURLs c d urls (default_run c worlds d urls) = Some out.
Proof.
  unfold CheckURLs, default_run.
  destruct (CheckURLs_launch c d urls) as [out|s0] eqn:Hl.
  - exists out; auto.
  - destruct (plan_returns c worlds urls (moves_left s0) s0) as (s & He & Hr & Hn).
    + eapply launch_sound; eauto.
    + lia.
    + exists (checkResults s). rewrite He, Hr; auto.
Qed.

(** Runs are finite and never stuck before the return. *)
Theorem CheckURLs_run_finite (c : Checker) (d : bool) (urls : list string)
    (sched : list action) (s0 s : pool) :
  CheckURLs_launch c d urls = Launched s0 ->
  exec c sched s0 = Some s ->
  (length sched <= moves_left s0)%nat
  /\ (returned s = false ->
      exists a s', is_cancel a = false /\ step c a s = Some s').
Proof.
  intros Hl He. split.
  - apply exec_bounded in He; lia.
  - intros Hr.
    destruct (next_enabled c (fun _ => serving 200 0) urls s) as (a & s' & _ & Ha & Hs);
      eauto using exec_sound, launch_sound.
Qed.

(** * The batch: cardinality, worker count, empty and invalid inputs *)

(** C1 (amended): with maxWorkers >= 1 and no cancellation before the return,
    CheckURLs returns exactly one CheckResult per input URL, duplicates
    included: the URLs of the results are a permutation of the input, so the
    lengths agree; such a returning run exists for every network.  Whatever
    the cancellation state, the results never answer for more than the
    input URLs. *)
Theorem CheckURLs_one_result_per_url (c : Checker) (urls : list string) :
  1 <= maxWorkers c ->
  (forall sched out,
      existsb is_cancel sched = false ->
      CheckURLs c false urls sched = Some out ->
      URL <$> out ≡ₚ urls /\ length out = length urls)
  /\ (forall worlds : string -> World, exists out,
        existsb is_cancel (default_run c worlds false urls) = false
        /\ CheckURLs c false urls (default_run c worlds false urls) = Some out)
  /\ (forall d sched out,
        CheckURLs c d urls sched = Some out ->
        URL <$> out ⊆+ urls /\ (length out <= length urls)%nat).
Proof.
  intros Hmw.
  assert (Hsub : forall d sched out,
             CheckURLs c d urls sched = Some out -> URL <$> out ⊆+ urls).
  { intros d sched out. unfold CheckURLs.
    destruct (CheckURLs_launch c d urls) as [out0|s0] eqn:Hl.
    - unfold CheckURLs_launch in Hl.
      destruct (workerCount c urls =? 0); [|discriminate].
      injection Hl as <-. intros [= <-]. apply submseteq_nil_l.
    - destruct (exec c sched s0) as [s|] eqn:He; [|discriminate].
      destruct (returned s); [|discriminate]. intros [= <-].
      eapply collected_sub, exec_sound; eauto using launch_sound. }
  assert (Hperm : forall sched out,
             existsb is_cancel sched = false ->
             CheckURLs c false urls sched = Some out -> URL <$> out ≡ₚ urls).
  { intros sched out Hn. unfold CheckURLs.
    destruct (CheckURLs_launch c false urls) as [out0|s0] eqn:Hl.
    - unfold CheckURLs_launch in Hl.
      destruct (Z.eqb_spec (workerCount c urls) 0) as [Hz|]; [|discriminate].
      injection Hl as <-. intros [= <-].
      rewrite workerCount_is_min in Hz.
      destruct urls; [reflexivity|simpl in Hz; lia].
    - destruct (exec c sched s0) as [s|] eqn:He; [|discriminate].
      destruct (returned s) eqn:Hr; [|discriminate]. intros [= <-].
      destruct (launch_workers _ _ _ _ Hl) as (Hw & _ & _ & Hd & _).
      destruct (exec_ctx_done _ _ _ _ He) as (_ & Hkeep & Hlen).
      apply (returned_all urls s).
      + eapply exec_sound; [eapply launch_sound|]; eauto.
      + assumption.
      + rewrite (Hkeep Hn); assumption.
      + intros Hnil. rewrite Hnil, Hw, length_replicate in Hlen. simpl in Hlen.
        unfold CheckURLs_launch in Hl.
        destruct (Z.eqb_spec (workerCount c urls) 0) as [|Hz]; [discriminate|].
        rewrite workerCount_is_min in Hz, Hlen. lia. }
  split; [|split].
  - intros sched out Hn Hout. pose proof (Hperm sched out Hn Hout) as HP.
    split; [assumption|].
    apply Permutation_length in HP. rewrite length_fmap in HP. assumption.
  - intros worlds. apply CheckURLs_returns; assumption.
  - intros d sched out Hout. pose proof (Hsub d sched out Hout) as HS.
    split; [assumption|].
    apply submseteq_length in HS. rewrite length_fmap in HS. assumption.
Qed.

Lemma CheckURLs_one_result_per_url_witness :
  1 <= maxWorkers (New 5000000000 2)
  /\ match CheckURLs (New 5000000000 2) false ["http://a/"; "http://a/"]
             two_workers_run with
     | Some out => URL <$> out ≡ₚ ["http://a/"; "http://a/"] /\ length out = 2%nat
     | None => False
     end.
Proof.
  assert (Hmw : 1 <= maxWorkers (New 5000000000 2)) by (simpl; lia).
  split; [exact Hmw|].
  destruct (CheckURLs _ _ _ _) as [out|] eqn:E.
  - apply (proj1 (CheckURLs_one_result_per_url (New 5000000000 2)
                    ["http://a/"; "http://a/"] Hmw) two_workers_run);
      [reflexivity|exact E].
  - vm_compute in E. discriminate.
Defined.

(** C1 as stated fails: a cancellation in the middle of a batch of two URLs
    handled by one worker leaves the second URL without a result, and the
    call returns one result for two URLs. *)
Lemma CheckURLs_drops_after_cancel :
  length <$> CheckURLs (New 5000000000 1) false ["http://a/"; "http://b/"]
               cancelled_run
  = Some 1%nat
  /\ 1%nat <> length ["http://a/"; "http://b/"].
Proof. split; [vm_compute; reflexivity|discriminate]. Qed.

Lemma in_flight_le_executors (ws : list worker_pc) :
  (length (filter (fun w => is_in_flight w = true) ws)
   <= length (filter (fun w => is_exited w = false) ws))%nat.
Proof.
  induction ws as [|w ws IH]; [reflexivity|].
  rewrite !filter_cons.
  destruct w; simpl; repeat case_decide; simpl; try congruence; lia.
Qed.

(** C5 (amended): the worker count the code computes is
    min(maxWorkers, number of URLs); the number of workers started is that
    count when maxWorkers >= 0 and zero when it is negative; with
    maxWorkers >= 1 the count is at least 1 for a non-empty list; and at no
    point of a run are there more executors, or probes in flight, than
    workers started. *)
Theorem workers_spawned (c : Checker) (urls : list string) :
  let n := Z.of_nat (length urls) in
  workerCount c urls = Z.min (maxWorkers c) n
  /\ Z.of_nat (spawned c urls) = Z.max 0 (Z.min (maxWorkers c) n)
  /\ (0 <= maxWorkers c -> Z.of_nat (spawned c urls) = Z.min (maxWorkers c) n)
  /\ (1 <= maxWorkers c -> urls <> [] -> 1 <= Z.min (maxWorkers c) n)
  /\ (forall d sched s0 s,
        CheckURLs_launch c d urls = Launched s0 ->
        exec c sched s0 = Some s ->
        (in_flight s <= executors s)%nat
        /\ (executors s <= spawned c urls)%nat
        /\ (1 <= maxWorkers c ->
            Z.of_nat (executors s) <= Z.min (maxWorkers c) n)).
Proof.
  intros n. subst n.
  assert (Hsp : Z.of_nat (spawned c urls)
                = Z.max 0 (Z.min (maxWorkers c) (Z.of_nat (length urls)))).
  { unfold spawned, CheckURLs_launch. rewrite <- workerCount_is_min.
    destruct (Z.eqb_spec (workerCount c urls) 0) as [Hz|Hz]; simpl.
    - rewrite Hz; reflexivity.
    - rewrite length_replicate. lia. }
  split; [apply workerCount_is_min|].
  split; [exact Hsp|].
  split; [intros; lia|].
  split; [intros ? ?; destruct urls; [congruence|simpl; lia]|].
  intros d sched s0 s Hl He.
  split; [apply in_flight_le_executors|].
  destruct (exec_ctx_done _ _ _ _ He) as (_ & _ & Hlen).
  destruct (launch_workers _ _ _ _ Hl) as (Hw & _).
  assert (Hex : (executors s <= spawned c urls)%nat).
  { unfold executors.
    etransitivity; [apply length_filter|].
    rewrite Hlen, Hw, length_replicate.
    rewrite <- workerCount_is_min in Hsp. lia. }
  split; [exact Hex|]. intros Hmw. lia.
Qed.

(** C5 as stated fails for a negative maxWorkers: no worker is started,
    while min(maxWorkers, number of URLs) is negative. *)
Lemma spawned_negative_maxWorkers :
  spawned (New 5000000000 (-1)) ["http://a/"] = 0%nat
  /\ Z.min (maxWorkers (New 5000000000 (-1))) (Z.of_nat (length ["http://a/"])) = -1
  /\ Z.of_nat (spawned (New 5000000000 (-1)) ["http://a/"])
     <> Z.min (maxWorkers (New 5000000000 (-1))) (Z.of_nat (length ["http://a/"])).
Proof. repeat split; discriminate. Qed.

(** A call whose worker count is zero or negative starts no worker, never
    probes, and returns the empty list. *)
Lemma CheckURLs_idle (c : Checker) (d : bool) (urls : list string) :
  workerCount c urls <= 0 ->
  spawned c urls = 0%nat
  /\ (forall sched, runs c d urls sched -> existsb is_probe sched = false)
  /\ (forall sched out, CheckURLs c d urls sched = Some out -> out = [])
  /\ (exists sched, CheckURLs c d urls sched = Some []).
Proof.
  intros Hwc.
  assert (Hidle : forall d' s0, CheckURLs_launch c d' urls = Launched s0 ->
                    workers s0 = [] /\ results s0 = [] /\ checkResults s0 = []).
  { intros d' s0 Hl. destruct (launch_workers _ _ _ _ Hl) as (Hw & Hr & Hg & _).
    rewrite Hw. replace (Z.to_nat (workerCount c urls)) with 0%nat by lia. auto. }
  assert (Hout : forall sched out, CheckURLs c d urls sched = Some out -> out = []).
  { intros sched out. unfold CheckURLs.
    destruct (CheckURLs_launch c d urls) as [out0|s0] eqn:Hl.
    - unfold CheckURLs_launch in Hl.
      destruct (workerCount c urls =? 0); [|discriminate].
      injection Hl as <-. congruence.
    - destruct (Hidle _ _ Hl) as (Hw & Hr & Hg).
      destruct (exec c sched s0) as [s|] eqn:He; [|discriminate].
      destruct (returned s); [|discriminate]. intros [= <-].
      eapply exec_idle; eauto. }
  split; [|split; [|split]].
  - unfold spawned.
    destruct (CheckURLs_launch c false urls) as [out0|s0] eqn:Hl; [reflexivity|].
    destruct (Hidle _ _ Hl) as (Hw & _). rewrite Hw; reflexivity.
  - intros sched. unfold runs.
    destruct (CheckURLs_launch c d urls) as [out0|s0] eqn:Hl.
    + intros ->; reflexivity.
    + destruct (Hidle _ _ Hl) as (Hw & Hr & Hg).
      intros [s He]. eapply exec_idle; eauto.
  - exact Hout.
  - destruct (CheckURLs_returns c d urls (fun _ => serving 200 0))
      as (out & _ & Hrun).
    eexists. rewrite Hrun. f_equal. eapply Hout; eauto.
Qed.

(** C6: for the empty list CheckURLs starts no worker, never probes, and
    returns the empty list, whatever the timeout, maxWorkers and the
    cancellation state: at once when maxWorkers >= 0, and otherwise after at
    most four moves of the helper goroutines (closing jobs, closing results,
    and the return). *)
Theorem CheckURLs_empty (c : Checker) (d : bool) :
  spawned c [] = 0%nat
  /\ (0 <= maxWorkers c -> CheckURLs_launch c d [] = ReturnedAtOnce [])
  /\ (forall sched, runs c d [] sched ->
        existsb is_probe sched = false /\ (length sched <= 4)%nat)
  /\ (forall sched out, CheckURLs c d [] sched = Some out -> out = [])
  /\ CheckURLs c d [] [FeederClose; CloseResults; Return] = Some [].
Proof.
  assert (Hwc : workerCount c [] <= 0) by (rewrite workerCount_is_min; simpl; lia).
  destruct (CheckURLs_idle c d [] Hwc) as (Hsp & Hnp & Hout & _).
  split; [exact Hsp|].
  split; [|split; [|split; [exact Hout|]]].
  - intros Hmw. unfold CheckURLs_launch.
    destruct (Z.eqb_spec (workerCount c []) 0) as [|Hz]; [reflexivity|].
    rewrite workerCount_is_min in Hz. simpl in Hz. lia.
  - intros sched Hrun. split; [apply Hnp; exact Hrun|].
    unfold runs in Hrun.
    destruct (CheckURLs_launch c d []) as [out0|s0] eqn:Hl.
    + subst sched; simpl; lia.
    + destruct Hrun as [s He].
      apply exec_bounded in He.
      destruct (launch_workers _ _ _ _ Hl) as (_ & _ & _ & _ & Hm).
      rewrite Hm in He. simpl in He. destruct d; lia.
  - unfold CheckURLs, CheckURLs_launch.
    destruct (workerCount c [] =? 0); [reflexivity|].
    replace (Z.to_nat (workerCount c [])) with 0%nat by lia.
    reflexivity.
Qed.

(** C9: for a non-empty list and maxWorkers <= 0, CheckURLs starts no
    worker, probes no URL in any run, and returns the empty list; its only
    result is that list, so nothing signals an error to the caller. *)
Theorem CheckURLs_nonpositive_maxWorkers (c : Checker) (d : bool)
    (urls : list string) :
  maxWorkers c <= 0 -> urls <> [] ->
  spawned c urls = 0%nat
  /\ (forall sched, runs c d urls sched -> existsb is_probe sched = false)
  /\ (forall sched out, CheckURLs c d urls sched = Some out -> out = [])
  /\ (exists sched, CheckURLs c d urls sched = Some []).
Proof.
  intros Hmw _. apply CheckURLs_idle.
  rewrite workerCount_is_min. lia.
Qed.

Lemma CheckURLs_nonpositive_maxWorkers_witness :
  spawned (New 5000000000 (-3)) ["http://a/"; "http://b/"] = 0%nat
  /\ (forall sched, runs (New 5000000000 (-3)) true ["http://a/"; "http://b/"] sched ->
        existsb is_probe sched = false)
  /\ (forall sched out,
        CheckURLs (New 5000000000 (-3)) true ["http://a/"; "http://b/"] sched = Some out ->
        out = [])
  /\ (exists sched,
        CheckURLs (New 5000000000 (-3)) true ["http://a/"; "http://b/"] sched = Some []).
Proof.
  apply (CheckURLs_nonpositive_maxWorkers (New 5000000000 (-3)) true
           ["http://a/"; "http://b/"]).
  - simpl; lia.
  - discriminate.
Defined.

(** * The caller's view: no configuration error *)

Lemma handleCheckURLs_status (cfg : Api.Config) (decoded : string + CheckRequest)
    (d : bool) (sched : list action) (total_ns : Z) (reply : Api.Reply) :
  Api.handleCheckURLs cfg decoded d sched total_ns = Some reply ->
  Api.status reply = if Api.rejected decoded then 400 else 200.
Proof.
  unfold Api.handleCheckURLs, Api.rejected.
  destruct decoded as [err|req].
  - intros [= <-]; reflexivity.
  - destruct (length (URLs req) =? 0)%nat; [intros [= <-]; reflexivity|].
    destruct (1000 <? length (URLs req))%nat; [intros [= <-]; reflexivity|].
    destruct (CheckURLs _ _ _ _); [|discriminate].
    intros [= <-]; reflexivity.
Qed.

(** C2 (amended): with max_workers < 1 (in the request and in the
    configuration) and a non-empty list the batch reports no configuration
    error: no probe is dispatched, CheckURLs returns the empty list, and the
    handler answers 200 with zero results.  The only requests turned down as
    a whole (400) are those with an undecodable body, no URL, or more than
    1000 URLs. *)
Theorem handleCheckURLs_no_config_error (cfg : Api.Config) (req : CheckRequest)
    (d : bool) (total_ns : Z) :
  Api.MaxWorkers cfg < 1 -> MaxWorkers req < 1 ->
  URLs req <> [] -> (length (URLs req) <= 1000)%nat ->
  (forall sched reply,
      Api.handleCheckURLs cfg (inr req) d sched total_ns = Some reply ->
      reply = empty_reply total_ns)
  /\ (exists sched,
        Api.handleCheckURLs cfg (inr req) d sched total_ns
        = Some (empty_reply total_ns))
  /\ (forall sched, runs (Api.urlChecker cfg req) d (URLs req) sched ->
        existsb is_probe sched = false)
  /\ (forall decoded d' sched total reply,
        Api.handleCheckURLs cfg decoded d' sched total = Some reply ->
        Api.status reply = if Api.rejected decoded then 400 else 200).
Proof.
  intros Hcfg Hreq Hne Hmax.
  assert (Hwc : workerCount (Api.urlChecker cfg req) (URLs req) <= 0).
  { rewrite workerCount_is_min. unfold Api.urlChecker. simpl.
    destruct (Z.ltb_spec 0 (MaxWorkers req)); lia. }
  destruct (CheckURLs_idle _ d _ Hwc) as (_ & Hnp & Hout & sched0 & Hrun).
  assert (Hlen : (length (URLs req) =? 0)%nat = false).
  { destruct (URLs req); [congruence|reflexivity]. }
  assert (Hbig : (1000 <? length (URLs req))%nat = false).
  { apply Nat.ltb_ge; assumption. }
  split; [|split; [|split]].
  - intros sched reply. unfold Api.handleCheckURLs. rewrite Hlen, Hbig.
    destruct (CheckURLs (Api.urlChecker cfg req) d (URLs req) sched)
      as [out|] eqn:E; [|discriminate].
    rewrite (Hout _ _ E). intros [= <-]. reflexivity.
  - exists sched0. unfold Api.handleCheckURLs. rewrite Hlen, Hbig, Hrun.
    reflexivity.
  - exact Hnp.
  - intros; eapply handleCheckURLs_status; eauto.
Qed.

Lemma handleCheckURLs_no_config_error_witness :
  exists sched,
    Api.handleCheckURLs no_workers_cfg (inr no_workers_req) false sched 1000000
    = Some (empty_reply 1000000).
Proof.
  apply (handleCheckURLs_no_config_error no_workers_cfg no_workers_req false 1000000).
  - simpl; lia.
  - simpl; lia.
  - discriminate.
  - simpl; lia.
Defined.

(** C2 as stated fails: a request with one URL and max_workers 0, under a
    configuration with MaxWorkers 0, is answered 200 with zero results, not
    with an error; CheckURLs itself returns the empty list. *)
Lemma zero_maxWorkers_is_not_an_error :
  CheckURLs (New 5000000000 0) false ["http://a/"] [] = Some []
  /\ Api.handleCheckURLs no_workers_cfg (inr no_workers_req) false [] 1000000
     = Some (empty_reply 1000000)
  /\ Api.status (empty_reply 1000000) = 200.
Proof. repeat split; vm_compute; reflexivity. Qed.

(** * Redirects, failures and cancellation in the probe *)



(** The model of [Do] does follow redirects under a policy that allows it:
    the same network gives the target's 200 after two sends. *)
Example following_client_follows :
  Http.reply (exchange (following 5000000000 10)
                (redirecting 301 "http://b/" 3000000) "http://a/") = inl 200
  /\ Http.sends (exchange (following 5000000000 10)
                   (redirecting 301 "http://b/" 3000000) "http://a/") = 2%nat.
Proof. split; vm_compute; reflexivity. Qed.

(** C4 (amended): a probe that obtains no response (request not built,
    connection failure, timeout, cancellation) gives a result that is not
    available, has status code zero and a non-empty error; when the request
    was built, the response time is the whole milliseconds elapsed from the
    start to the failure. *)
Theorem checkURL_no_answer (c : Checker) (w : World) (url : string) :
  (forall status, ending c w url <> Answered status) ->
  let r := checkURL c w url in
  Available r = false
  /\ StatusCode r = 0
  /\ Error r <> ""
  /\ (build_error w url = None ->
      ResponseTimeMs r = Http.Milliseconds (elapsed c w url)).
Proof.
  unfold ending, elapsed, checkURL.
  destruct (build_error w url) as [err|].
  - intros _; simpl. repeat split; [discriminate|discriminate].
  - destruct (Http.reply (exchange c w url)) as [st|e].
    + intros H; exfalso; apply (H st); reflexivity.
    + intros _; simpl. repeat split; discriminate.
Qed.

Lemma checkURL_no_answer_witness :
  Available (checkURL (New 100000000 10) (serving 200 2000000000) "http://a/") = false
  /\ StatusCode (checkURL (New 100000000 10) (serving 200 2000000000) "http://a/") = 0
  /\ Error (checkURL (New 100000000 10) (serving 200 2000000000) "http://a/") <> ""
  /\ (build_error (serving 200 2000000000) "http://a/" = None ->
      ResponseTimeMs (checkURL (New 100000000 10) (serving 200 2000000000) "http://a/")
      = Http.Milliseconds
          (elapsed (New 100000000 10) (serving 200 2000000000) "http://a/")).
Proof.
  apply (checkURL_no_answer (New 100000000 10) (serving 200 2000000000) "http://a/").
  intros status; vm_compute; discriminate.
Defined.

(** C4 as stated fails for a malformed target: [checkURL] returns before it
    reads the clock again, so the response time stays zero however long the
    failed construction took (here two milliseconds). *)
Lemma checkURL_malformed_response_time :
  let c := New 5000000000 10 in
  let w := unparsable "parse ://invalid-url: missing protocol scheme" 2000000 in
  ending c w "://invalid-url"
    = NotBuilt "parse ://invalid-url: missing protocol scheme"
  /\ Http.Milliseconds (elapsed c w "://invalid-url") = 2
  /\ ResponseTimeMs (checkURL c w "://invalid-url") = 0
  /\ ResponseTimeMs (checkURL c w "://invalid-url")
     <> Http.Milliseconds (elapsed c w "://invalid-url").
Proof. repeat split; vm_compute; discriminate. Qed.




(** The cases of the repository's tests for [CheckURL]. *)
Example TestCheckURLSuccess :
  let r := CheckURL (New 5000000000 10) (serving 200 3000000) "http://127.0.0.1:1/" in
  URL r = "http://127.0.0.1:1/" /\ StatusCode r = 200 /\ Available r = true
  /\ Error r = "" /\ 0 < ResponseTimeMs r.
Proof. repeat split; vm_compute; reflexivity. Qed.

Example TestCheckURLNotFound :
  let r := CheckURL (New 5000000000 10) (serving 404 3000000) "http://127.0.0.1:1/" in
  StatusCode r = 404 /\ Available r = false /\ Error r = "".
Proof. repeat split; vm_compute; reflexivity. Qed.

Example TestCheckURLTimeout :
  let r := CheckURL (New 100000000 10) (serving 200 2000000000) "http://127.0.0.1:1/" in
  Error r <> "" /\ Available r = false /\ ResponseTimeMs r = 100
  /\ exists rest, Error r = "request failed: " +:+ rest.
Proof.
  repeat split; try (vm_compute; discriminate).
  eexists; vm_compute; reflexivity.
Qed.

Example TestCheckURLInvalidURL :
  let r := CheckURL (New 5000000000 10)
             (unparsable "parse ://invalid-url: missing protocol scheme" 1000)
             "://invalid-url" in
  Error r <> "" /\ Available r = false.
Proof. repeat split; vm_compute; discriminate. Qed.

(** The cases of the repository's tests for [CheckURLs]. *)
Example TestCheckURLsMultiple :
  map StatusCode
    <$> CheckURLs (New 5000000000 10) false ["http://s1/"; "http://s2/"]
          (default_run (New 5000000000 10) (fun _ => two_servers) false
             ["http://s1/"; "http://s2/"])
  = Some [200; 404].
Proof. vm_compute; reflexivity. Qed.

Example TestCheckURLsConcurrency :
  length <$> CheckURLs (New 5000000000 5) false (replicate 10 "http://s1/")
               (default_run (New 5000000000 5) (fun _ => two_servers) false
                  (replicate 10 "http://s1/"))
  = Some 10%nat
  /\ spawned (New 5000000000 5) (replicate 10 "http://s1/") = 5%nat.
Proof. split; vm_compute; reflexivity. Qed.

(** * Further properties of the pool *)

Lemma sum_list_insert (f : worker_pc -> nat) (ws : list worker_pc) (i : nat)
    (w0 w : worker_pc) :
  ws !! i = Some w0 ->
  (sum_list (f <$> <[i := w]> ws) + f w0 = sum_list (f <$> ws) + f w)%nat.
Proof.
  intros Hi.
  rewrite <- (take_drop_middle ws i w0 Hi) at 2.
  rewrite insert_take_drop by (eapply lookup_lt_Some; eauto).
  rewrite !fmap_app, !fmap_cons, !sum_list_append; simpl. lia.
Qed.

Lemma step_reported (c : Checker) (a : action) (s s' : pool) :
  step c a s = Some s' ->
  reported s' = (reported s + if is_probe a then 1 else 0)%nat.
Proof.
  unfold reported.
  destruct a; simpl; intros Hstep;
    repeat match type of Hstep with
    | context [match ?x with _ => _ end] =>
        let E := fresh "E" in destruct x eqn:E; try discriminate
    end;
    injection Hstep as <-; simpl;
    rewrite ?E, ?E0, ?E1, ?E2, ?length_app; simpl;
    try match goal with
    | Hi : workers s !! ?i = Some ?w0 |- context [<[?i := ?w]> (workers s)] =>
        pose proof (sum_list_insert flying (workers s) i w0 w Hi); simpl in *
    end;
    try lia.
Qed.

Lemma exec_reported (c : Checker) (sched : list action) :
  forall s s', exec c sched s = Some s' ->
  reported s' = (reported s + probes_begun sched)%nat.
Proof.
  unfold probes_begun.
  induction sched as [|a sched IH]; simpl; intros s s' Hexec.
  - injection Hexec as <-; lia.
  - destruct (step c a s) as [s1|] eqn:Hstep; [|discriminate].
    rewrite (IH _ _ Hexec), (step_reported _ _ _ _ Hstep), filter_cons.
    destruct (is_probe a); case_decide; simpl; try congruence; lia.
Qed.

Lemma all_exited_flying (ws : list worker_pc) :
  forallb is_exited ws = true -> sum_list (flying <$> ws) = 0%nat.
Proof.
  induction ws as [|w ws IH]; simpl; [reflexivity|].
  intros [Hw Hws]%andb_true_iff.
  destruct w; try discriminate. simpl. auto.
Qed.

Lemma launch_reported (c : Checker) (d : bool) (urls : list string) (s0 : pool) :
  CheckURLs_launch c d urls = Launched s0 -> reported s0 = 0%nat.
Proof.
  intros Hl. destruct (launch_workers _ _ _ _ Hl) as (Hw & Hr & Hg & _).
  unfold reported. rewrite Hw, Hr, Hg. simpl.
  assert (E : forall n, sum_list (flying <$> replicate n AtRange) = 0%nat).
  { induction n as [|n IH]; simpl; [reflexivity|exact IH]. }
  rewrite E. reflexivity.
Qed.

Lemma returned_reports_every_probe (c : Checker) (d : bool)
    (urls : list string) (sched : list action) (s0 s : pool) :
  CheckURLs_launch c d urls = Launched s0 ->
  exec c sched s0 = Some s ->
  returned s = true ->
  length (checkResults s) = probes_begun sched.
Proof.
  intros Hl He Hr.
  pose proof (exec_reported _ _ _ _ He) as Hrep.
  rewrite (launch_reported _ _ _ _ Hl) in Hrep.
  destruct (exec_sound c urls sched s0 s (launch_sound _ _ _ _ Hl) He)
    as [_ _ _ Hclosed Hret _].
  destruct (Hret Hr) as [Hc Hrs].
  unfold reported in Hrep.
  rewrite Hrs, (all_exited_flying _ (Hclosed Hc)) in Hrep. simpl in Hrep. lia.
Qed.

(** X1: every probe that is begun is reported exactly once: when the call
    returns, the number of results equals the number of probes begun in the
    run.  A URL is dropped only before its probe begins. *)
Theorem CheckURLs_reports_every_probe (c : Checker) (d : bool)
    (urls : list string) (sched : list action) (out : list CheckResult) :
  runs c d urls sched ->
  CheckURLs c d urls sched = Some out ->
  length out = probes_begun sched.
Proof.
  unfold runs, CheckURLs.
  destruct (CheckURLs_launch c d urls) as [out0|s0] eqn:Hl.
  - intros -> [= <-]. unfold CheckURLs_launch in Hl.
    destruct (workerCount c urls =? 0); [|discriminate].
    injection Hl as <-. reflexivity.
  - intros _. destruct (exec c sched s0) as [s|] eqn:He; [|discriminate].
    destruct (returned s) eqn:Hr; [|discriminate]. intros [= <-].
    eapply returned_reports_every_probe; eauto.
Qed.

Lemma CheckURLs_reports_every_probe_witness :
  match CheckURLs (New 5000000000 1) false ["http://a/"; "http://b/"]
          cancelled_run with
  | Some out => length out = probes_begun cancelled_run
  | None => False
  end.
Proof.
  destruct (CheckURLs _ _ _ _) as [out|] eqn:E.
  - apply (CheckURLs_reports_every_probe (New 5000000000 1) false
             ["http://a/"; "http://b/"] cancelled_run out); [|exact E].
    vm_compute. eexists; reflexivity.
  - vm_compute in E. discriminate.
Defined.

Lemma no_probe_begun (sched : list action) :
  existsb is_probe sched = false -> probes_begun sched = 0%nat.
Proof.
  unfold probes_begun.
  induction sched as [|a sched IH]; simpl; [reflexivity|].
  intros [Ha Hs]%orb_false_elim. rewrite filter_cons.
  case_decide; [congruence|auto].
Qed.

(** X2: a call made with a context that is already cancelled returns the
    empty list in every run, whatever maxWorkers and the URLs are; and such
    a call does return. *)
Theorem CheckURLs_cancelled_before_call (c : Checker) (urls : list string) :
  (forall sched out, CheckURLs c true urls sched = Some out -> out = [])
  /\ (forall worlds : string -> World,
        CheckURLs c true urls (default_run c worlds true urls) = Some []).
Proof.
  assert (H : forall sched out, CheckURLs c true urls sched = Some out -> out = []).
  { intros sched out. unfold CheckURLs.
    destruct (CheckURLs_launch c true urls) as [out0|s0] eqn:Hl.
    - intros [= <-]. unfold CheckURLs_launch in Hl.
      destruct (workerCount c urls =? 0); [|discriminate].
      injection Hl as <-. reflexivity.
    - destruct (exec c sched s0) as [s|] eqn:He; [|discriminate].
      destruct (returned s) eqn:Hr; [|discriminate]. intros [= <-].
      pose proof (returned_reports_every_probe _ _ _ _ _ _ Hl He Hr) as Hlen.
      destruct (launch_workers _ _ _ _ Hl) as (_ & _ & _ & Hd & _).
      destruct (exec_no_probe_once_done _ _ _ _ Hd He) as [Hnp _].
      rewrite (no_probe_begun _ Hnp) in Hlen.
      destruct (checkResults s); [reflexivity|discriminate]. }
  split; [exact H|].
  intros worlds.
  destruct (CheckURLs_returns c true urls worlds) as (out & _ & Hrun).
  rewrite Hrun. f_equal. eapply H; eauto.
Qed.

(** A move leaves the emitted results as they are or appends the result of
    one probe. *)
Lemma step_emitted (c : Checker) (a : action) (s s' : pool) :
  step c a s = Some s' ->
  emitted s' = emitted s
  \/ exists w url, emitted s' = emitted s ++ [checkURL c w url].
Proof.
  unfold emitted.
  destruct a; simpl; intros Hstep;
    repeat match type of Hstep with
    | context [match ?x with _ => _ end] =>
        let E := fresh "E" in destruct x eqn:E; try discriminate
    end;
    injection Hstep as <-; simpl; rewrite ?E, ?E0, ?E1, ?E2; auto.
  - right. eexists _, _. rewrite (assoc_L (++)). reflexivity.
  - left. rewrite <- (assoc_L (++)). reflexivity.
Qed.

Lemma exec_emitted (c : Checker) (sched : list action) :
  forall s s', exec c sched s = Some s' ->
  emitted s `prefix_of` emitted s'
  /\ (Forall (made_by c) (emitted s) -> Forall (made_by c) (emitted s')).
Proof.
  induction sched as [|a sched IH]; simpl; intros s s' Hexec.
  - injection Hexec as <-; split; [reflexivity|auto].
  - destruct (step c a s) as [s1|] eqn:Hstep; [|discriminate].
    destruct (IH _ _ Hexec) as [Hp Hm].
    destruct (step_emitted _ _ _ _ Hstep) as [E|(w & url & E)].
    + rewrite <- E. split; assumption.
    + split.
      * etransitivity; [|exact Hp]. rewrite E. apply prefix_app_r. reflexivity.
      * intros Hall. apply Hm. rewrite E. apply Forall_app_2; [assumption|].
        constructor; [|constructor]. exists w, url; reflexivity.
Qed.

(** X3: a result, once emitted, is never lost nor reordered: the results
    emitted up to any point of a run (collected or still in the channel)
    are a prefix of the list the call returns, even when the context is
    cancelled afterwards. *)
Theorem CheckURLs_keeps_emitted_results (c : Checker) (d : bool)
    (urls : list string) (before after : list action) (s0 s1 : pool)
    (out : list CheckResult) :
  CheckURLs_launch c d urls = Launched s0 ->
  exec c before s0 = Some s1 ->
  CheckURLs c d urls (before ++ after) = Some out ->
  emitted s1 `prefix_of` out.
Proof.
  intros Hl Hb. unfold CheckURLs. rewrite Hl, exec_app, Hb.
  destruct (exec c after s1) as [s|] eqn:He; [|discriminate].
  destruct (returned s) eqn:Hr; [|discriminate]. intros [= <-].
  destruct (exec_emitted _ _ _ _ He) as [Hp _].
  assert (Hs : sound urls s).
  { eapply exec_sound; [|exact He]. eapply exec_sound; [|exact Hb].
    eapply launch_sound; eauto. }
  destruct Hs as [_ _ _ _ Hret _]. destruct (Hret Hr) as [_ Hrs].
  unfold emitted in Hp at 2. rewrite Hrs, app_nil_r in Hp. exact Hp.
Qed.

Lemma CheckURLs_keeps_emitted_results_witness :
  match CheckURLs_launch (New 5000000000 1) false ["http://a/"; "http://b/"] with
  | Launched s0 =>
      match exec (New 5000000000 1) before_cancel s0,
            CheckURLs (New 5000000000 1) false ["http://a/"; "http://b/"]
              (before_cancel ++ after_cancel) with
      | Some s1, Some out => emitted s1 `prefix_of` out
      | _, _ => False
      end
  | ReturnedAtOnce _ => False
  end.
Proof.
  destruct (CheckURLs_launch _ _ _) as [|s0] eqn:Hl; [discriminate|].
  destruct (exec _ before_cancel s0) as [s1|] eqn:Hb.
  - destruct (CheckURLs _ _ _ _) as [out|] eqn:E.
    + exact (CheckURLs_keeps_emitted_results _ _ _ _ _ _ _ _ Hl Hb E).
    + vm_compute in E. discriminate.
  - injection Hl as <-. vm_compute in Hb. discriminate.
Defined.

Lemma checkURL_shape (c : Checker) (w : World) (url : string) :
  (Available (checkURL c w url) = true ->
   200 <= StatusCode (checkURL c w url) < 400 /\ Error (checkURL c w url) = "")
  /\ (Error (checkURL c w url) <> "" ->
      Available (checkURL c w url) = false /\ StatusCode (checkURL c w url) = 0).
Proof.
  unfold checkURL.
  destruct (build_error w url) as [err|]; simpl.
  { split; [discriminate|auto]. }
  destruct (Http.reply (exchange c w url)) as [st|err]; simpl.
  - split; [|congruence].
    intros H; apply available_range in H; auto.
  - split; [discriminate|auto].
Qed.

Lemma CheckURLs_made (c : Checker) (d : bool) (urls : list string)
    (sched : list action) (out : list CheckResult) :
  CheckURLs c d urls sched = Some out ->
  Forall (made_by c) out /\ URL <$> out ⊆+ urls.
Proof.
  unfold CheckURLs.
  destruct (CheckURLs_launch c d urls) as [out0|s0] eqn:Hl.
  - intros [= <-]. unfold CheckURLs_launch in Hl.
    destruct (workerCount c urls =? 0); [|discriminate].
    injection Hl as <-. split; [constructor|apply submseteq_nil_l].
  - destruct (exec c sched s0) as [s|] eqn:He; [|discriminate].
    destruct (returned s) eqn:Hr; [|discriminate]. intros [= <-].
    split.
    + destruct (exec_emitted _ _ _ _ He) as [_ Hm].
      destruct (launch_workers _ _ _ _ Hl) as (_ & Hr0 & Hg0 & _).
      unfold emitted in Hm. rewrite Hr0, Hg0 in Hm.
      apply Forall_app in Hm; [tauto|constructor].
    + eapply collected_sub, exec_sound; eauto using launch_sound.
Qed.

(** X4: every result that CheckURLs returns was made by a probe of one of
    the input URLs, and so keeps the shape of a probe's result: available
    implies a status code in [200, 400) and no error; an error implies not
    available and status code zero. *)
Theorem CheckURLs_results_are_probes (c : Checker) (d : bool)
    (urls : list string) (sched : list action) (out : list CheckResult) :
  CheckURLs c d urls sched = Some out ->
  Forall (fun r =>
            made_by c r /\ URL r ∈ urls
            /\ (Available r = true -> 200 <= StatusCode r < 400 /\ Error r = "")
            /\ (Error r <> "" -> Available r = false /\ StatusCode r = 0)) out.
Proof.
  intros Hout. destruct (CheckURLs_made _ _ _ _ _ Hout) as [Hm Hsub].
  rewrite Forall_forall in Hm |- *.
  intros r Hr. split; [auto|]. split.
  - eapply elem_of_submseteq; [|exact Hsub]. apply list_elem_of_fmap_2; exact Hr.
  - destruct (Hm r Hr) as (w & url & ->). apply checkURL_shape.
Qed.

Lemma CheckURLs_results_are_probes_witness :
  match CheckURLs (New 5000000000 2) false ["http://a/"; "http://a/"]
          two_workers_run with
  | Some out =>
      Forall (fun r =>
                made_by (New 5000000000 2) r /\ URL r ∈ ["http://a/"; "http://a/"]
                /\ (Available r = true -> 200 <= StatusCode r < 400 /\ Error r = "")
                /\ (Error r <> "" -> Available r = false /\ StatusCode r = 0)) out
  | None => False
  end.
Proof.
  destruct (CheckURLs _ _ _ _) as [out|] eqn:E.
  - exact (CheckURLs_results_are_probes _ _ _ _ _ E).
  - vm_compute in E. discriminate.
Defined.

(** X5: the channel operations of a call never block and never hit a closed
    channel: both buffers stay within their capacity, the feeder's send and
    any worker's send of a finished probe are always enabled, and results
    is closed only when every worker has returned. *)
Theorem channel_sends_never_block (c : Checker) (d : bool) (urls : list string)
    (sched : list action) (s0 s : pool) :
  CheckURLs_launch c d urls = Launched s0 ->
  exec c sched s0 = Some s ->
  (length (jobs s) <= length urls /\ length (results s) <= length urls)%nat
  /\ (forall url rest, feeder s = Feeding (url :: rest) ->
        is_Some (step c FeederSend s))
  /\ (forall i url w, workers s !! i = Some (InFlight url) ->
        is_Some (step c (WorkerEmit i w) s))
  /\ (results_closed s = true -> forallb is_exited (workers s) = true).
Proof.
  intros Hl He.
  assert (Hs : sound urls s) by (eauto using exec_sound, launch_sound).
  pose proof (accounted_length urls s Hs) as Hlen.
  destruct Hs as [Hcap Hsub Hall Hclosed Hret Hleft].
  rewrite Hcap in Hlen.
  split; [lia|]. split; [|split; [|exact Hclosed]].
  - intros url rest Hf. simpl. rewrite Hf. rewrite Hf in Hlen. simpl in Hlen.
    destruct (Nat.ltb_spec (length (jobs s)) (capacity s)); [eauto|lia].
  - intros i url w Hi. simpl. rewrite Hi.
    destruct (results_closed s) eqn:Hc.
    { pose proof (all_exited_lookup _ _ _ (Hclosed eq_refl) Hi); discriminate. }
    destruct (held_insert _ _ _ Hi) as (others & Ho & _).
    apply Permutation_length in Ho. simpl in Ho.
    destruct (Nat.ltb_spec (length (results s)) (capacity s)); [eauto|lia].
Qed.

Lemma channel_sends_never_block_witness :
  match CheckURLs_launch (New 5000000000 1) false ["http://a/"; "http://b/"] with
  | Launched s0 =>
      match exec (New 5000000000 1) before_cancel s0 with
      | Some s => (length (jobs s) <= 2 /\ length (results s) <= 2)%nat
      | None => False
      end
  | ReturnedAtOnce _ => False
  end.
Proof.
  destruct (CheckURLs_launch _ _ _) as [|s0] eqn:Hl; [discriminate|].
  destruct (exec _ before_cancel s0) as [s|] eqn:Hb.
  - exact (proj1 (channel_sends_never_block _ _ _ _ _ _ Hl Hb)).
  - injection Hl as <-. vm_compute in Hb. discriminate.
Defined.



(** After the return only the feeder and the environment can move, and they
    leave the caller's list alone. *)
Lemma step_after_return (c : Checker) (a : action) (s s' : pool) :
  returned s = true -> results_closed s = true ->
  forallb is_exited (workers s) = true ->
  step c a s = Some s' ->
  returned s' = true /\ results_closed s' = true
  /\ workers s' = workers s /\ checkResults s' = checkResults s.
Proof.
  intros Hr Hc Hw.
  destruct a; simpl; rewrite ?Hr, ?Hc; intros Hstep;
    try discriminate;
    try (destruct (workers s !! i) as [w0|] eqn:Hi; [|discriminate];
         rewrite (all_exited_lookup _ _ _ Hw Hi) in Hstep; discriminate);
    repeat match type of Hstep with
    | context [match ?x with _ => _ end] =>
        let E := fresh "E" in destruct x eqn:E; try discriminate
    end;
    injection Hstep as <-; simpl; auto.
Qed.

Lemma exec_after_return (c : Checker) (more : list action) :
  forall s s', returned s = true -> results_closed s = true ->
  forallb is_exited (workers s) = true ->
  exec c more s = Some s' ->
  returned s' = true /\ workers s' = workers s
  /\ checkResults s' = checkResults s.
Proof.
  induction more as [|a more IH]; simpl; intros s s' Hr Hc Hw Hexec.
  - injection Hexec as <-; auto.
  - destruct (step c a s) as [s1|] eqn:Hstep; [|discriminate].
    destruct (step_after_return _ _ _ _ Hr Hc Hw Hstep) as (H1 & H2 & H3 & H4).
    rewrite <- H3 in Hw.
    destruct (IH _ _ H1 H2 Hw Hexec) as (H5 & H6 & H7).
    repeat split; congruence.
Qed.

(** X7: when CheckURLs returns, every worker has returned and results is
    closed and empty; whatever moves later leaves the returned list as it
    is.  Without cancellation and with at least one worker the feeder has
    finished too, so no goroutine of the call outlives it: the only move
    left is the cancellation of the context. *)
Theorem CheckURLs_result_is_final (c : Checker) (d : bool) (urls : list string)
    (sched more : list action) (s0 s s' : pool) :
  CheckURLs_launch c d urls = Launched s0 ->
  exec c sched s0 = Some s ->
  returned s = true ->
  exec c more s = Some s' ->
  forallb is_exited (workers s) = true
  /\ results_closed s = true /\ results s = []
  /\ checkResults s' = checkResults s
  /\ (ctx_done s = false -> workers s <> [] ->
      feeder s = JobsClosed /\ jobs s = [] /\ (length more <= 1)%nat).
Proof.
  intros Hl He Hr Hmore.
  assert (Hs : sound urls s) by (eauto using exec_sound, launch_sound).
  destruct Hs as [_ _ _ Hclosed Hret Hleft].
  destruct (Hret Hr) as [Hc Hrs]. specialize (Hclosed Hc).
  destruct (exec_after_return _ _ _ _ Hr Hc Hclosed Hmore) as (_ & _ & Hsame).
  repeat split; auto.
  - destruct (Hleft H) as [Hf _]; [|exact Hf].
    destruct (workers s) as [|w ws] eqn:E; [congruence|].
    rewrite (all_exited_lookup (w :: ws) 0 w Hclosed eq_refl). left.
  - destruct (Hleft H) as [_ Hj]; [|exact Hj].
    destruct (workers s) as [|w ws] eqn:E; [congruence|].
    rewrite (all_exited_lookup (w :: ws) 0 w Hclosed eq_refl). left.
  - destruct (Hleft H) as [Hf Hj].
    { destruct (workers s) as [|w ws] eqn:E; [congruence|].
      rewrite (all_exited_lookup (w :: ws) 0 w Hclosed eq_refl). left. }
    pose proof (exec_bounded _ _ _ _ Hmore) as Hb.
    unfold moves_left in Hb at 2.
    rewrite H, Hf, Hj, Hrs, Hc, Hr in Hb. simpl in Hb.
    assert (Hz : sum_list (worker_weight <$> workers s) = 0%nat).
    { clear -Hclosed. induction (workers s) as [|w ws IH]; [reflexivity|].
      simpl in Hclosed. apply andb_true_iff in Hclosed as [Hw Hws].
      destruct w; try discriminate. simpl. auto. }
    rewrite Hz in Hb. lia.
Qed.

Lemma CheckURLs_result_is_final_witness :
  match CheckURLs_launch (New 5000000000 2) false ["http://a/"; "http://a/"] with
  | Launched s0 =>
      match exec (New 5000000000 2) two_workers_run s0 with
      | Some s =>
          match exec (New 5000000000 2) [Cancel] s with
          | Some s' => checkResults s' = checkResults s
          | None => False
          end
      | None => False
      end
  | ReturnedAtOnce _ => False
  end.
Proof.
  destruct (CheckURLs_launch _ _ _) as [|s0] eqn:Hl; [discriminate|].
  destruct (exec _ two_workers_run s0) as [s|] eqn:He.
  - destruct (exec _ [Cancel] s) as [s'|] eqn:Hm.
    + refine (proj1 (proj2 (proj2 (proj2
                (CheckURLs_result_is_final _ _ _ _ _ _ _ _ Hl He _ Hm))))).
      injection Hl as <-. vm_compute in He. injection He as <-. reflexivity.
    + injection Hl as <-. vm_compute in He. injection He as <-.
      vm_compute in Hm. discriminate.
  - injection Hl as <-. vm_compute in He. discriminate.
Defined.

(** With one worker the URLs keep their input order through the pool. *)
Lemma step_lined_up (c : Checker) (a : action) (s s' : pool) :
  length (workers s) = 1%nat ->
  step c a s = Some s' -> ctx_done s' = false ->
  lined_up s' = lined_up s.
Proof.
  intros Hone.
  destruct (workers s) as [|w0 [|w1 ws]] eqn:Hws; try discriminate. clear Hone.
  unfold lined_up.
  destruct a; simpl; rewrite ?Hws; intros Hstep Hd;
    try (destruct i as [|i]; simpl in Hstep; [|discriminate]);
    repeat match type of Hstep with
    | context [match ?x with _ => _ end] =>
        let E := fresh "E" in destruct x eqn:E; try discriminate
    end;
    injection Hstep as <-; simpl in *;
    rewrite ?Hws, ?E, ?E0, ?E1, ?E2, ?fmap_app; simpl;
    rewrite ?URL_checkURL, <- ?(assoc_L (++)); simpl;
    try reflexivity; try congruence.
Qed.

Lemma exec_lined_up (c : Checker) (sched : list action) :
  forall s s', length (workers s) = 1%nat ->
  exec c sched s = Some s' -> ctx_done s' = false ->
  lined_up s' = lined_up s.
Proof.
  induction sched as [|a sched IH]; simpl; intros s s' Hone Hexec Hd.
  - congruence.
  - destruct (step c a s) as [s1|] eqn:Hstep; [|discriminate].
    destruct (step_ctx_done _ _ _ _ Hstep) as (Hmono & _ & Hlen).
    destruct (exec_ctx_done _ _ _ _ Hexec) as (Hmono' & _ & _).
    assert (Hd1 : ctx_done s1 = false).
    { destruct (ctx_done s1); [|reflexivity]. rewrite Hmono' in Hd; auto. }
    rewrite (IH s1 s') by congruence.
    eapply step_lined_up; eauto.
Qed.

(** X8: with maxWorkers = 1 and no cancellation the results come back in
    the order of the input: the URLs of the returned list are the input
    list itself. *)
Theorem CheckURLs_single_worker_keeps_order (c : Checker) (urls : list string)
    (sched : list action) (out : list CheckResult) :
  maxWorkers c = 1 ->
  existsb is_cancel sched = false ->
  CheckURLs c false urls sched = Some out ->
  URL <$> out = urls.
Proof.
  intros Hmw Hn. unfold CheckURLs.
  destruct (CheckURLs_launch c false urls) as [out0|s0] eqn:Hl.
  - unfold CheckURLs_launch in Hl.
    destruct (Z.eqb_spec (workerCount c urls) 0) as [Hz|]; [|discriminate].
    injection Hl as <-. intros [= <-].
    rewrite workerCount_is_min in Hz.
    destruct urls; [reflexivity|simpl in Hz; lia].
  - destruct (exec c sched s0) as [s|] eqn:He; [|discriminate].
    destruct (returned s) eqn:Hr; [|discriminate]. intros [= <-].
    destruct (launch_workers _ _ _ _ Hl) as (Hw & Hr0 & Hg0 & Hd & _).
    destruct (exec_ctx_done _ _ _ _ He) as (_ & Hkeep & Hlen).
    assert (Hwc : workerCount c urls = 1).
    { unfold CheckURLs_launch in Hl.
      destruct (Z.eqb_spec (workerCount c urls) 0) as [|Hz]; [discriminate|].
      rewrite workerCount_is_min in Hz |- *. lia. }
    rewrite Hwc in Hw. simpl in Hw.
    assert (Hone : length (workers s0) = 1%nat) by (rewrite Hw; reflexivity).
    assert (Hds : ctx_done s = false) by (rewrite (Hkeep Hn); exact Hd).
    pose proof (exec_lined_up _ _ _ _ Hone He Hds) as Hline.
    assert (Hs : sound urls s) by (eauto using exec_sound, launch_sound).
    destruct Hs as [_ _ _ Hclosed Hret Hleft].
    destruct (Hret Hr) as [Hc Hrs]. specialize (Hclosed Hc).
    destruct (Hleft Hds) as [Hf Hj].
    { destruct (workers s) as [|w ws] eqn:E; [rewrite Hone in Hlen; discriminate|].
      rewrite (all_exited_lookup (w :: ws) 0 w Hclosed eq_refl). left. }
    unfold lined_up in Hline.
    rewrite Hrs, Hf, Hj, (all_exited_held _ Hclosed), Hr0, Hg0, Hw in Hline.
    unfold CheckURLs_launch in Hl.
    destruct (workerCount c urls =? 0); [discriminate|].
    injection Hl as <-. simpl in Hline.
    rewrite !app_nil_r in Hline. exact Hline.
Qed.

Lemma CheckURLs_single_worker_keeps_order_witness :
  match CheckURLs (New 5000000000 1) false ["http://s2/"; "http://s1/"; "http://s2/"]
          (default_run (New 5000000000 1) (fun _ => two_servers) false
             ["http://s2/"; "http://s1/"; "http://s2/"]) with
  | Some out => URL <$> out = ["http://s2/"; "http://s1/"; "http://s2/"]
  | None => False
  end.
Proof.
  destruct (CheckURLs _ _ _ _) as [out|] eqn:E.
  - apply (CheckURLs_single_worker_keeps_order (New 5000000000 1)
             ["http://s2/"; "http://s1/"; "http://s2/"]
             (default_run (New 5000000000 1) (fun _ => two_servers) false
                ["http://s2/"; "http://s1/"; "http://s2/"]) out);
      [reflexivity|vm_compute; reflexivity|exact E].
  - vm_compute in E. discriminate.
Defined.

(** * Further properties of the probe, the handler and the configuration *)




Lemma value_Inc (label l : string) (m : gmap string nat) :
  Metrics.value (Metrics.Inc label m) l
  = (Metrics.value m l + if decide (l = label) then 1 else 0)%nat.
Proof.
  unfold Metrics.Inc, Metrics.value at 1.
  destruct (decide (l = label)) as [->|Hne].
  - rewrite lookup_insert_eq. simpl. lia.
  - rewrite lookup_insert_ne by congruence. unfold Metrics.value. lia.
Qed.

Lemma value_count_checks (results : list CheckResult) :
  forall (m : gmap string nat) (l : string),
  Metrics.value (Metrics.count_checks results m) l
  = (Metrics.value m l
     + length (filter (fun r => Metrics.check_status r = l) results))%nat.
Proof.
  unfold Metrics.count_checks.
  induction results as [|r results IH]; intros m l; simpl; [lia|].
  rewrite IH, value_Inc, filter_cons.
  destruct (decide (l = Metrics.check_status r)); case_decide; simpl;
    try congruence; lia.
Qed.

Lemma check_status_cases (r : CheckResult) :
  (Error r = "" /\ Metrics.check_status r = "success")
  \/ (Error r <> "" /\ Metrics.check_status r = "failure").
Proof.
  unfold Metrics.check_status.
  destruct (String.eqb_spec (Error r) ""); auto.
Qed.

Lemma count_by_status (results : list CheckResult) :
  length (filter (fun r => Metrics.check_status r = "success") results)
  = answered_count results
  /\ (length (filter (fun r => Metrics.check_status r = "failure") results)
      + answered_count results = length results)%nat
  /\ (forall l, l <> "success" -> l <> "failure" ->
        length (filter (fun r => Metrics.check_status r = l) results) = 0%nat).
Proof.
  unfold answered_count.
  induction results as [|r results (IH1 & IH2 & IH3)]; simpl.
  { repeat split; reflexivity. }
  rewrite !filter_cons.
  destruct (check_status_cases r) as [[He Hs]|[He Hs]]; rewrite Hs;
    repeat case_decide; try congruence; simpl; repeat split; try lia.
  - intros l Hl1 Hl2. rewrite filter_cons. case_decide; [congruence|auto].
  - intros l Hl1 Hl2. rewrite filter_cons. case_decide; [congruence|auto].
Qed.

Lemma available_le_answered (c : Checker) (results : list CheckResult) :
  Forall (made_by c) results ->
  (length (filter (fun r => Available r = true) results)
   <= answered_count results)%nat.
Proof.
  unfold answered_count.
  induction 1 as [|r results (w & url & ->) _ IH]; simpl; [lia|].
  rewrite !filter_cons.
  destruct (checkURL_shape c w url) as [Hav _].
  repeat case_decide; simpl; try lia.
  exfalso. destruct Hav; auto.
Qed.

(** X10: the handler counts every returned result once in
    url_checks_total, as "failure" when its error is set and as "success"
    otherwise, also for a 404 or a 500: the two labels grow together by
    total_checked, total_available never exceeds what "success" grew by, no
    other label changes, and a rejected request counts nothing. *)
Theorem handleCheckURLs_counts_results (cfg : Api.Config)
    (decoded : string + CheckRequest) (d : bool) (sched : list action)
    (total_ns : Z) (m m' : gmap string nat) (reply : Api.Reply) :
  Api.handleCheckURLs cfg decoded d sched total_ns = Some reply ->
  Metrics.handleCheckURLs_counts cfg decoded d sched m = Some m' ->
  match Api.body reply with
  | Api.Message _ => Api.status reply = 400 /\ m' = m
  | Api.Json resp =>
      Api.status reply = 200
      /\ Metrics.value m' "success"
         = (Metrics.value m "success" + answered_count (Results resp))%nat
      /\ Z.of_nat (Metrics.value m' "success" + Metrics.value m' "failure")
         = Z.of_nat (Metrics.value m "success" + Metrics.value m "failure")
           + TotalChecked resp
      /\ TotalAvailable resp <= Z.of_nat (answered_count (Results resp))
      /\ (forall l, l <> "success" -> l <> "failure" ->
            Metrics.value m' l = Metrics.value m l)
  end.
Proof.
  unfold Api.handleCheckURLs, Metrics.handleCheckURLs_counts.
  destruct decoded as [err|req].
  { intros [= <-] [= <-]. simpl. auto. }
  destruct (length (URLs req) =? 0)%nat.
  { intros [= <-] [= <-]. simpl. auto. }
  destruct (1000 <? length (URLs req))%nat.
  { intros [= <-] [= <-]. simpl. auto. }
  destruct (CheckURLs (Api.urlChecker cfg req) d (URLs req) sched)
    as [results|] eqn:E; [|discriminate].
  intros [= <-] [= <-]. simpl.
  destruct (count_by_status results) as (H1 & H2 & H3).
  destruct (CheckURLs_made _ _ _ _ _ E) as [Hm _].
  pose proof (available_le_answered _ _ Hm) as Hav.
  rewrite !value_count_checks, H1.
  split; [reflexivity|]. split; [reflexivity|]. split; [lia|].
  split; [unfold Api.availableCount; lia|].
  intros l Hs Hf. rewrite value_count_checks, (H3 l Hs Hf). lia.
Qed.

Lemma handleCheckURLs_counts_results_witness :
  match Api.handleCheckURLs no_workers_cfg
          (inr {| URLs := ["http://s1/"; "http://s2/"]; Timeout := 0; MaxWorkers := 2 |})
          false
          (default_run (New 10000000000 2) (fun _ => two_servers) false
             ["http://s1/"; "http://s2/"]) 7000000,
        Metrics.handleCheckURLs_counts no_workers_cfg
          (inr {| URLs := ["http://s1/"; "http://s2/"]; Timeout := 0; MaxWorkers := 2 |})
          false
          (default_run (New 10000000000 2) (fun _ => two_servers) false
             ["http://s1/"; "http://s2/"]) ∅ with
  | Some reply, Some m' =>
      match Api.body reply with
      | Api.Message _ => False
      | Api.Json resp =>
          Metrics.value m' "success" = 2%nat /\ TotalAvailable resp = 1
      end
  | _, _ => False
  end.
Proof.
  destruct (Api.handleCheckURLs _ _ _ _ _) as [reply|] eqn:E1;
    [|vm_compute in E1; discriminate].
  destruct (Metrics.handleCheckURLs_counts _ _ _ _ _) as [m'|] eqn:E2;
    [|vm_compute in E2; discriminate].
  pose proof (handleCheckURLs_counts_results _ _ _ _ _ _ _ _ E1 E2) as H.
  vm_compute in E1. injection E1 as <-. simpl in H |- *.
  destruct H as (_ & Hs & _). split; [exact Hs|reflexivity].
Defined.

Lemma CheckURLs_all_reported (c : Checker) (urls : list string)
    (sched : list action) (out : list CheckResult) :
  1 <= maxWorkers c ->
  existsb is_cancel sched = false ->
  CheckURLs c false urls sched = Some out ->
  URL <$> out ≡ₚ urls.
Proof.
  intros Hmw Hn. unfold CheckURLs.
  destruct (CheckURLs_launch c false urls) as [out0|s0] eqn:Hl.
  - unfold CheckURLs_launch in Hl.
    destruct (Z.eqb_spec (workerCount c urls) 0) as [Hz|]; [|discriminate].
    injection Hl as <-. intros [= <-].
    rewrite workerCount_is_min in Hz.
    destruct urls; [reflexivity|simpl in Hz; lia].
  - destruct (exec c sched s0) as [s|] eqn:He; [|discriminate].
    destruct (returned s) eqn:Hr; [|discriminate]. intros [= <-].
    destruct (launch_workers _ _ _ _ Hl) as (Hw & _ & _ & Hd & _).
    destruct (exec_ctx_done _ _ _ _ He) as (_ & Hkeep & Hlen).
    apply (returned_all urls s).
    + eapply exec_sound; [eapply launch_sound|]; eauto.
    + assumption.
    + rewrite (Hkeep Hn); assumption.
    + intros Hnil. rewrite Hnil, Hw, length_replicate in Hlen. simpl in Hlen.
      unfold CheckURLs_launch in Hl.
      destruct (Z.eqb_spec (workerCount c urls) 0) as [|Hz]; [discriminate|].
      rewrite workerCount_is_min in Hz, Hlen. lia.
Qed.

Lemma availableCount_bounds (results : list CheckResult) :
  0 <= Api.availableCount results <= Z.of_nat (length results).
Proof.
  unfold Api.availableCount.
  pose proof (length_filter (fun r => Available r = true) results). lia.
Qed.

(** X11: the handler never answers with more results than URLs asked, at
    most 1000, and total_available never exceeds total_checked.  When
    max_workers is positive in the request or in the configuration and the
    request is not cancelled, an accepted request is answered 200 with
    exactly one result per URL. *)
Theorem handleCheckURLs_answers_every_url (cfg : Api.Config) (req : CheckRequest)
    (d : bool) (sched : list action) (total_ns : Z) (reply : Api.Reply) :
  Api.rejected (inr req) = false ->
  Api.handleCheckURLs cfg (inr req) d sched total_ns = Some reply ->
  exists resp,
    reply = {| Api.status := 200; Api.body := Api.Json resp |}
    /\ TotalChecked resp = Z.of_nat (length (Results resp))
    /\ TotalChecked resp <= Z.of_nat (length (URLs req)) <= 1000
    /\ 0 <= TotalAvailable resp <= TotalChecked resp
    /\ URL <$> Results resp ⊆+ URLs req
    /\ (1 <= Api.MaxWorkers cfg \/ 1 <= MaxWorkers req ->
        d = false -> existsb is_cancel sched = false ->
        URL <$> Results resp ≡ₚ URLs req
        /\ TotalChecked resp = Z.of_nat (length (URLs req))).
Proof.
  unfold Api.rejected, Api.handleCheckURLs.
  intros [Hlen Hbig]%orb_false_elim. rewrite Hlen, Hbig.
  destruct (CheckURLs (Api.urlChecker cfg req) d (URLs req) sched)
    as [results|] eqn:E; [|discriminate].
  intros [= <-]. eexists; split; [reflexivity|]. simpl.
  destruct (CheckURLs_made _ _ _ _ _ E) as [_ Hsub].
  pose proof (submseteq_length _ _ Hsub) as Hle. rewrite length_fmap in Hle.
  apply Nat.ltb_ge in Hbig.
  split; [reflexivity|]. split; [lia|].
  split; [apply availableCount_bounds|]. split; [exact Hsub|].
  intros Hmw -> Hn.
  assert (HP : URL <$> results ≡ₚ URLs req).
  { apply (CheckURLs_all_reported (Api.urlChecker cfg req) _ sched); auto.
    unfold Api.urlChecker. simpl.
    destruct (Z.ltb_spec 0 (MaxWorkers req)); lia. }
  split; [exact HP|].
  apply Permutation_length in HP. rewrite length_fmap in HP. lia.
Qed.

Lemma handleCheckURLs_answers_every_url_witness :
  match Api.handleCheckURLs no_workers_cfg (inr two_urls_req) false
          (default_run (New 10000000000 2) (fun _ => two_servers) false
             ["http://s1/"; "http://s2/"]) 7000000 with
  | Some reply =>
      exists resp,
        reply = {| Api.status := 200; Api.body := Api.Json resp |}
        /\ TotalChecked resp = Z.of_nat (length (Results resp))
  | None => False
  end.
Proof.
  destruct (Api.handleCheckURLs _ _ _ _ _) as [reply|] eqn:E;
    [|vm_compute in E; discriminate].
  destruct (handleCheckURLs_answers_every_url no_workers_cfg two_urls_req
              false _ 7000000 reply eq_refl E) as (resp & H1 & H2 & _).
  exists resp; auto.
Defined.

Lemma Atoi_empty : Config.Atoi "" = None.
Proof. reflexivity. Qed.

Lemma getEnvInt_cases (os : Config.Os) (key : string) (defaultVal : Z) :
  Config.getEnvInt os key defaultVal
  = match Config.Atoi (Config.Getenv os key) with
    | Some i => i
    | None => defaultVal
    end.
Proof.
  unfold Config.getEnvInt.
  destruct (String.eqb_spec (Config.Getenv os key) "") as [->|]; reflexivity.
Qed.

(** X12: Load takes every setting from the environment when its variable
    holds a usable value, and from the command-line flag otherwise: an
    integer variable is usable when strconv.Atoi accepts it (the empty
    string is not), a duration when it is non-empty and parses, the log
    level when it is non-empty.  The values are not validated: any integer
    the variable spells, also zero or a negative one, becomes MaxWorkers. *)
Theorem Load_environment_first (os : Config.Os) (flags : Config.Flags) :
  let cfg := Config.Load os flags in
  Api.Version cfg = "1.0.0"
  /\ Api.Port cfg
     = default (Config.port flags) (Config.Atoi (Config.Getenv os "PORT"))
  /\ Api.MaxWorkers cfg
     = default (Config.workers flags) (Config.Atoi (Config.Getenv os "MAX_WORKERS"))
  /\ (forall n, Config.Atoi (Config.Getenv os "MAX_WORKERS") = Some n ->
        Api.MaxWorkers cfg = n /\ -9223372036854775808 <= n <= 9223372036854775807)
  /\ (Config.Getenv os "DEFAULT_TIMEOUT" = "" ->
      Api.DefaultTimeout cfg = Config.timeout flags)
  /\ (Config.Getenv os "DEFAULT_TIMEOUT" <> "" ->
      Api.DefaultTimeout cfg
      = default (Config.timeout flags)
          (Config.ParseDuration os (Config.Getenv os "DEFAULT_TIMEOUT")))
  /\ (Config.Getenv os "LOG_LEVEL" = "" -> Api.LogLevel cfg = Config.log_level flags)
  /\ (Config.Getenv os "LOG_LEVEL" <> "" ->
      Api.LogLevel cfg = Config.Getenv os "LOG_LEVEL").
Proof.
  intros cfg. subst cfg. unfold Config.Load. simpl.
  rewrite !getEnvInt_cases.
  split; [reflexivity|].
  split; [destruct (Config.Atoi _); reflexivity|].
  split; [destruct (Config.Atoi _); reflexivity|].
  split.
  { intros n Hn. rewrite Hn. split; [reflexivity|].
    unfold Config.Atoi in Hn.
    destruct (Config.Getenv os "MAX_WORKERS") as [|a rest]; [discriminate|].
    assert (Hu : forall sign s, Config.unsigned sign s = Some n ->
                   -9223372036854775808 <= n <= 9223372036854775807).
    { intros sign s. unfold Config.unsigned.
      destruct s; [discriminate|]. destruct (Config.digits _ 0); [|discriminate].
      destruct (Config.in_int64 _) eqn:Hr; [|discriminate]. intros [= <-].
      unfold Config.in_int64 in Hr. lia. }
    destruct (Config.is_char 45 a); [eauto|].
    destruct (Config.is_char 43 a); eauto. }
  unfold Config.getEnvDuration, Config.getEnvString.
  repeat split.
  - intros ->. reflexivity.
  - intros Hne. destruct (String.eqb_spec (Config.Getenv os "DEFAULT_TIMEOUT") "");
      [contradiction|]. simpl. destruct (Config.ParseDuration _ _); reflexivity.
  - intros ->. reflexivity.
  - intros Hne. destruct (String.eqb_spec (Config.Getenv os "LOG_LEVEL") "");
      [contradiction|reflexivity].
Qed.

(** X13: a MAX_WORKERS variable that spells zero or a negative integer is
    accepted by Load, and the service then answers every accepted request
    that brings no positive max_workers of its own with 200 and zero
    results, without probing any URL. *)
Theorem Load_nonpositive_workers_empty_replies (os : Config.Os)
    (flags : Config.Flags) (n : Z) (req : CheckRequest) (d : bool)
    (total_ns : Z) :
  Config.Atoi (Config.Getenv os "MAX_WORKERS") = Some n -> n <= 0 ->
  MaxWorkers req <= 0 -> Api.rejected (inr req) = false ->
  (forall sched reply,
      Api.handleCheckURLs (Config.Load os flags) (inr req) d sched total_ns
      = Some reply ->
      reply = empty_reply total_ns)
  /\ (forall sched,
        runs (Api.urlChecker (Config.Load os flags) req) d (URLs req) sched ->
        probes_begun sched = 0%nat)
  /\ (exists sched,
        Api.handleCheckURLs (Config.Load os flags) (inr req) d sched total_ns
        = Some (empty_reply total_ns)).
Proof.
  intros Hn Hle Hreq [Hlen Hbig]%orb_false_elim.
  assert (Hwc : workerCount (Api.urlChecker (Config.Load os flags) req) (URLs req) <= 0).
  { rewrite workerCount_is_min. unfold Api.urlChecker, Config.Load. simpl.
    rewrite getEnvInt_cases, Hn.
    destruct (Z.ltb_spec 0 (MaxWorkers req)); lia. }
  destruct (CheckURLs_idle _ d _ Hwc) as (_ & Hnp & Hout & sched0 & Hrun).
  split; [|split].
  - intros sched reply. unfold Api.handleCheckURLs. rewrite Hlen, Hbig.
    destruct (CheckURLs (Api.urlChecker (Config.Load os flags) req) d (URLs req) sched)
      as [out|] eqn:E; [|discriminate].
    rewrite (Hout _ _ E). intros [= <-]. reflexivity.
  - intros sched Hr. apply no_probe_begun, Hnp, Hr.
  - exists sched0. unfold Api.handleCheckURLs. rewrite Hlen, Hbig, Hrun.
    reflexivity.
Qed.

Lemma Load_nonpositive_workers_empty_replies_witness :
  exists sched,
    Api.handleCheckURLs (Config.Load (only_max_workers "-1") default_flags)
      (inr no_workers_req) false sched 1000000
    = Some (empty_reply 1000000).
Proof.
  apply (Load_nonpositive_workers_empty_replies (only_max_workers "-1")
           default_flags (-1) no_workers_req false 1000000).
  - reflexivity.
  - discriminate.
  - discriminate.
  - reflexivity.
Defined.


